(** * llmux: a scatter-gather scheduler over NotebookLM nodes

    Shallow embedding of [llmux.py] (classes [NotebookLMNode] and
    [NotebookLMScheduler]) and the properties of its sharding policy,
    its query round and its synthesis prompt.

    Python objects live in a store and are referred to by location, the
    remote service and the file system are parameters, every coroutine is
    a computation in a state-and-exception monad, and [asyncio.gather] is
    modelled with an explicit completion schedule. *)

From Stdlib Require Import ZArith Lia Ascii String DecimalString.
From stdpp Require Import base option list strings.

Local Open Scope string_scope.
Local Open Scope list_scope.
Local Open Scope Z_scope.

(** ** Python strings *)

Module PyStr.

Definition nl : string := String "010"%char EmptyString.
Definition dquote : string := String "034"%char EmptyString.

(** [str(n)] for an [int]. *)
Definition str_of_nat (n : nat) : string :=
  NilZero.string_of_uint (Nat.to_uint n).
Definition str_of_Z (z : Z) : string :=
  NilZero.string_of_int (Z.to_int z).

(** [c * n] for a one-character string [c]. *)
Fixpoint repeat_char (c : ascii) (n : nat) : string :=
  match n with
  | O => EmptyString
  | S n' => String c (repeat_char c n')
  end.

(** [sep.join(parts)] *)
Fixpoint join (sep : string) (parts : list string) : string :=
  match parts with
  | [] => EmptyString
  | [p] => p
  | p :: rest => p +:+ sep +:+ join sep rest
  end.

(** [s.split(c)[-1]] for a one-character separator: the text after the
    last occurrence of [c], the whole of [s] when there is none.  This
    is also [os.path.basename] on POSIX paths for [c = "/"]. *)
Fixpoint last_segment_go (c : ascii) (s : string) (cur : string) : string :=
  match s with
  | EmptyString => cur
  | String a s' =>
      if Ascii.eqb a c then last_segment_go c s' s'
      else last_segment_go c s' cur
  end.
Definition last_segment (c : ascii) (s : string) : string :=
  last_segment_go c s s.

(** [l[a:b]] with Python's rules: a negative index counts from the
    end, both indices are clamped into [0, len(l)], and an empty range
    gives the empty list. *)
Definition clamp_index (len i : Z) : Z :=
  let i' := if i <? 0 then i + len else i in
  Z.max 0 (Z.min len i').
Definition slice {A} (l : list A) (a b : Z) : list A :=
  let len := Z.of_nat (length l) in
  let a' := clamp_index len a in
  let b' := clamp_index len b in
  take (Z.to_nat (b' - a')) (drop (Z.to_nat a') l).

(** Text search, to decide where a piece of text occurs. *)
Fixpoint strip_prefix (t s : string) : option string :=
  match t with
  | EmptyString => Some s
  | String a t' =>
      match s with
      | EmptyString => None
      | String b s' => if Ascii.eqb a b then strip_prefix t' s' else None
      end
  end.

(** [t in s] *)
Fixpoint occurs (t s : string) : bool :=
  match s with
  | EmptyString => bool_decide (is_Some (strip_prefix t s))
  | String _ s' => bool_decide (is_Some (strip_prefix t s)) || occurs t s'
  end.

(** [a] occurs in [s] and [b] occurs somewhere after that occurrence. *)
Fixpoint occurs_then (a b s : string) : bool :=
  match s with
  | EmptyString =>
      match strip_prefix a s with Some rest => occurs b rest | None => false end
  | String _ s' =>
      match strip_prefix a s with Some rest => occurs b rest | None => false end
      || occurs_then a b s'
  end.

(** [c in s] for a one-character string [c]. *)
Fixpoint contains_char (c : ascii) (s : string) : bool :=
  match s with
  | EmptyString => false
  | String a s' => Ascii.eqb a c || contains_char c s'
  end.

(** [enumerate(l)] *)
Definition enumerate {A} (l : list A) : list (nat * A) :=
  zip (seq 0 (length l)) l.

End PyStr.

(** ** Exceptions, HTTP, the object store *)

Inductive exn :=
| Exception (msg : string)       (* [raise Exception(msg)] in llmux.py *)
| KeyError (key : string)        (* [data[key]] on a missing key *)
| ContentTypeError               (* [response.json()] on a non-JSON body *)
| ClientError (msg : string)     (* the transport failed: aiohttp.ClientError *)
| OSError (path : string)        (* [open(path, 'rb')] failed *)
| InvalidReference.              (* a location outside the store; no Python
                                    program can produce one *)

Inductive outcome (A : Type) :=
| Ok (a : A)
| Raise (e : exn).
Arguments Ok {A} a.
Arguments Raise {A} e.

Definition succeeded {A} (o : outcome A) : bool :=
  match o with Ok _ => true | Raise _ => false end.

(** A JSON object or a header dict with string values, as the ordered
    list of its items; [dict_get] is [d[key]] (or [None] for a missing
    key). *)
Definition dict : Type := list (string * string).

Fixpoint dict_get (d : dict) (key : string) : option string :=
  match d with
  | [] => None
  | (k, v) :: rest => if String.eqb k key then Some v else dict_get rest key
  end.

Inductive http_body :=
| JsonBody (fields : dict)
| FormBody (field filename content content_type : string).

Record http_request := HttpRequest {
  req_url : string;
  req_headers : dict;
  req_body : http_body
}.

Record http_response := HttpResponse {
  status : Z;
  text : string;                          (* [await response.text()] *)
  json : option dict     (* [await response.json()] *)
}.

Definition loc := nat.

Record NotebookLMNode := MkNode {
  api_key : string;
  node_id : string;
  notebook_id : option string             (* [None] until created *)
}.

Record NotebookLMScheduler := MkScheduler {
  sched_api_key : string;
  nodes : list loc;
  scheduler_node : loc
}.

(** The interpreter state: the store of node objects, the one scheduler
    object, the requests sent so far (oldest first, each with the handle
    that sent it) and what was printed. *)
Record state := MkState {
  heap : list NotebookLMNode;
  scheduler : NotebookLMScheduler;
  net_log : list (loc * http_request);
  stdout : list string
}.

Definition set_heap (h : list NotebookLMNode) (st : state) : state :=
  MkState h (scheduler st) (net_log st) (stdout st).
Definition set_scheduler (s : NotebookLMScheduler) (st : state) : state :=
  MkState (heap st) s (net_log st) (stdout st).
Definition log_request (l : loc) (r : http_request) (st : state) : state :=
  MkState (heap st) (scheduler st) (net_log st ++ [(l, r)]) (stdout st).
Definition log_print (line : string) (st : state) : state :=
  MkState (heap st) (scheduler st) (net_log st) (stdout st ++ [line]).

(** ** The monad of coroutines *)

Definition M (A : Type) : Type := state → outcome A * state.

Definition ret {A} (a : A) : M A := λ st, (Ok a, st).
Definition raise {A} (e : exn) : M A := λ st, (Raise e, st).
Definition bind {A B} (m : M A) (k : A → M B) : M B :=
  λ st, match m st with
        | (Ok a, st') => k a st'
        | (Raise e, st') => (Raise e, st')
        end.

(** stdpp's monad notations: [x ← m; k] and [m;; k]. *)
Global Instance M_ret : MRet M := @ret.
Global Instance M_bind : MBind M := λ A B k m, bind m k.

Definition get_state : M state := λ st, (Ok st, st).
Definition modify (f : state → state) : M unit := λ st, (Ok tt, f st).
Definition print (line : string) : M unit := modify (log_print line).

Definition get_node (l : loc) : M NotebookLMNode :=
  st ← get_state;
  match heap st !! l with
  | Some n => ret n
  | None => raise InvalidReference
  end.

Definition alloc_node (n : NotebookLMNode) : M loc :=
  st ← get_state;
  modify (set_heap (heap st ++ [n]));;
  ret (length (heap st)).

Definition set_notebook_id (l : loc) (id : string) : M unit :=
  n ← get_node l;
  modify (λ st, set_heap (<[l := MkNode (api_key n) (node_id n) (Some id)]> (heap st)) st).

(** [data[key]] *)
Definition getitem (data : dict) (key : string) : M string :=
  match dict_get data key with
  | Some v => ret v
  | None => raise (KeyError key)
  end.

(** [await response.json()] *)
Definition response_json (r : http_response) : M dict :=
  match json r with
  | Some d => ret d
  | None => raise ContentTypeError
  end.

(** [not self.notebook_id]: [None] and the empty string are both falsy. *)
Definition falsy (o : option string) : bool :=
  match o with
  | None => true
  | Some EmptyString => true
  | Some _ => false
  end.

(** [f"{self.notebook_id}"] *)
Definition fmt_opt (o : option string) : string :=
  match o with
  | None => "None"
  | Some s => s
  end.

Section Program.

(** The remote service answers a request knowing the requests it has
    already seen; it either answers or the transport raises. *)
Variable service : list http_request → http_request → exn + http_response.

(** The files on disk: [open(path, 'rb').read()]. *)
Variable fs : string → option string.

(** [session.post(url, headers=..., json=... / data=...)] *)
Definition post (self : loc) (r : http_request) : M http_response :=
  st ← get_state;
  modify (log_request self r);;
  match service (net_log st).*2 r with
  | inl e => raise e
  | inr resp => ret resp
  end.

Definition read_file (path : string) : M string :=
  match fs path with
  | Some bytes => ret bytes
  | None => raise (OSError path)
  end.

(** *** class NotebookLMNode *)

Definition base_url : string := "https://notebooklm.googleapis.com/v1".

Definition headers (n : NotebookLMNode) : dict :=
  [ ("Authorization", "Bearer " +:+ api_key n);
    ("Content-Type", "application/json") ].

(** [NotebookLMNode(api_key, node_id)] *)
Definition new_node (key id : string) : M loc :=
  alloc_node (MkNode key id None).

Definition create_notebook (self : loc) (name : string) : M string :=
  n ← get_node self;
  let url := base_url +:+ "/notebooks" in
  let payload : dict :=
    [ ("display_name", name +:+ " - Node " +:+ node_id n) ] in
  response ← post self (HttpRequest url (headers n) (JsonBody payload));
  if status response =? 200 then
    data ← response_json response;
    full ← getitem data "name";
    let id := PyStr.last_segment "/"%char full in
    set_notebook_id self id;;
    ret id
  else
    raise (Exception ("Failed to create notebook: " +:+ text response)).

Definition upload_document (self : loc) (document_path : string) : M string :=
  n ← get_node self;
  if falsy (notebook_id n) then raise (Exception "Notebook not created yet")
  else
    let url := base_url +:+ "/notebooks/" +:+ fmt_opt (notebook_id n) +:+ "/documents" in
    document_content ← read_file document_path;
    let document_name := PyStr.last_segment "/"%char document_path in
    response ← post self (HttpRequest url (headers n)
                  (FormBody "document" document_name document_content
                            "application/octet-stream"));
    if status response =? 200 then
      data ← response_json response;
      getitem data "document_id"
    else
      raise (Exception ("Failed to upload document: " +:+ text response)).

Definition ask_question (self : loc) (question : string) : M string :=
  n ← get_node self;
  if falsy (notebook_id n) then raise (Exception "Notebook not created yet")
  else
    let url := base_url +:+ "/notebooks/" +:+ fmt_opt (notebook_id n) +:+ "/query" in
    let payload : dict := [ ("query", question) ] in
    response ← post self (HttpRequest url (headers n) (JsonBody payload));
    if status response =? 200 then
      data ← response_json response;
      getitem data "response"
    else
      raise (Exception ("Failed to query notebook: " +:+ text response)).


(** *** asyncio.gather

    [await asyncio.gather] on a list of tasks runs every task to completion; tasks
    complete in an order the program does not control.  A task here is
    one network round trip, so it runs atomically, and the order is
    given by a choice sequence: at each step the task at position
    [choice mod (number of pending tasks)] among the pending ones
    completes next (a missing choice counts as 0).  Every choice sequence
    is a valid schedule and every completion order has one.

    Without [return_exceptions], the awaiter receives the first exception
    raised, in completion order; the other tasks are not cancelled.  When
    no task raises, the awaiter receives the results in the order of the
    tasks, not of their completion. *)

Fixpoint run_tasks {A} (n : nat) (pending : list (nat * M A)) (choices : list nat)
    (st : state) : list (nat * outcome A) * state :=
  match n with
  | O => ([], st)
  | S n' =>
      let c := (hd 0 choices mod length pending)%nat in
      match (pending !! c : option (nat * M A)) with
      | None => ([], st)
      | Some (i, task) =>
          let '(o, st1) := task st in
          let '(rest, st2) := run_tasks n' (delete c pending) (tl choices) st1 in
          ((i, o) :: rest, st2)
      end
  end.

(** The completion record of a gather: (task index, outcome) in
    completion order, and the state once every task is done. *)
Definition completions {A} (choices : list nat) (tasks : list (M A))
    (st : state) : list (nat * outcome A) * state :=
  run_tasks (length tasks) (PyStr.enumerate tasks) choices st.

Fixpoint first_exception {A} (done : list (nat * outcome A)) : option exn :=
  match done with
  | [] => None
  | (_, Raise e) :: _ => Some e
  | (_, Ok _) :: rest => first_exception rest
  end.

Fixpoint result_of {A} (done : list (nat * outcome A)) (i : nat) : option A :=
  match done with
  | [] => None
  | (j, o) :: rest =>
      if (i =? j)%nat then match o with Ok a => Some a | Raise _ => None end
      else result_of rest i
  end.

Definition gather {A} (choices : list nat) (tasks : list (M A)) : M (list A) :=
  λ st,
    let '(done, st') := completions choices tasks st in
    match first_exception done with
    | Some e => (Raise e, st')
    | None => (Ok (omap (result_of done) (seq 0 (length tasks))), st')
    end.

(** *** class NotebookLMScheduler *)

Definition get_scheduler : M NotebookLMScheduler :=
  st ← get_state; ret (scheduler st).

Definition set_nodes (pool : list loc) : M unit :=
  modify (λ st, set_scheduler
    (MkScheduler (sched_api_key (scheduler st)) pool (scheduler_node (scheduler st))) st).

(** [NotebookLMScheduler(api_key)] *)
Definition new_scheduler (key : string) : M unit :=
  aggregator ← new_node key "scheduler";
  modify (set_scheduler (MkScheduler key [] aggregator)).

Definition initialize_scheduler : M unit :=
  self ← get_scheduler;
  create_notebook (scheduler_node self) "Scheduler Node";;
  ret tt.

Definition add_node (node : loc) : M unit :=
  self ← get_scheduler;
  set_nodes (nodes self ++ [node]).

Fixpoint initialize_nodes_loop (items : list (nat * string)) (acc : list loc)
    : M (list loc) :=
  match items with
  | [] => ret acc
  | (i, name) :: rest =>
      self ← get_scheduler;
      node ← new_node (sched_api_key self) (PyStr.str_of_nat (i + 1));
      create_notebook node name;;
      initialize_nodes_loop rest (acc ++ [node])
  end.

Definition initialize_nodes (node_names : list string) : M (list loc) :=
  pool ← initialize_nodes_loop (PyStr.enumerate node_names) [];
  set_nodes pool;;
  ret pool.

(** The documents of node [i]: lines 122-124. *)
Definition node_docs (document_paths : list string) (documents_per_node : Z)
    (i : nat) : list string :=
  let start_idx := Z.of_nat i * documents_per_node in
  let end_idx := Z.min (start_idx + documents_per_node)
                       (Z.of_nat (length document_paths)) in
  PyStr.slice document_paths start_idx end_idx.

(** The (node, document) pairs in the order the two nested loops of
    lines 121-127 append their upload tasks. *)
Definition upload_plan (pool : list loc) (document_paths : list string)
    (documents_per_node : Z) : list (loc * string) :=
  flat_map (λ '(i, node), map (pair node) (node_docs document_paths documents_per_node i))
           (PyStr.enumerate pool).

Definition default_documents_per_node : Z := 25.

Definition capacity_message (capacity : Z) : string :=
  "Too many documents. Maximum is " +:+ PyStr.str_of_Z capacity.

(** The condition of line 117. *)
Definition over_capacity (pool : list loc) (document_paths : list string)
    (documents_per_node : Z) : bool :=
  Z.of_nat (length document_paths) >? Z.of_nat (length pool) * documents_per_node.

(** [documents_per_node = None] is a call that leaves the argument out. *)
Definition distribute_documents (choices : list nat) (document_paths : list string)
    (documents_per_node : option Z) : M unit :=
  let per_node := default default_documents_per_node documents_per_node in
  self ← get_scheduler;
  let capacity := Z.of_nat (length (nodes self)) * per_node in
  if over_capacity (nodes self) document_paths per_node then
    raise (Exception (capacity_message capacity))
  else
    let tasks := map (λ '(node, doc_path), upload_document node doc_path)
                     (upload_plan (nodes self) document_paths per_node) in
    gather choices tasks;;
    print ("Distributed " +:+ PyStr.str_of_nat (length document_paths)
           +:+ " documents across " +:+ PyStr.str_of_nat (length (nodes self))
           +:+ " nodes").

Definition indent : string := "        ".
Definition rule : string := PyStr.repeat_char "-"%char 40.

Definition node_block (item : nat * string) : string :=
  "Node " +:+ PyStr.str_of_nat (item.1 + 1) +:+ " Response:" +:+ PyStr.nl +:+ item.2.

Definition summary_header (question : string) : string :=
  PyStr.nl +:+ indent +:+ "I received the following responses to the question: "
    +:+ PyStr.dquote +:+ question +:+ PyStr.dquote +:+ PyStr.nl
  +:+ indent +:+ PyStr.nl
  +:+ indent +:+ rule +:+ PyStr.nl
  +:+ indent +:+ PyStr.nl
  +:+ indent.

Definition summary_footer : string :=
  PyStr.nl
  +:+ indent +:+ PyStr.nl
  +:+ indent +:+ rule +:+ PyStr.nl
  +:+ indent +:+ PyStr.nl
  +:+ indent +:+ "Please synthesize these responses into a comprehensive answer, highlighting agreements and differences." +:+ PyStr.nl
  +:+ indent +:+ "Provide a unified response that captures the key insights from all nodes." +:+ PyStr.nl
  +:+ indent.

Definition summary_request (question : string) (responses : list string) : string :=
  summary_header question
  +:+ PyStr.join (PyStr.nl +:+ PyStr.nl) (map node_block (PyStr.enumerate responses))
  +:+ summary_footer.

Definition process_query (choices : list nat) (question : string) : M string :=
  print ("Processing query: " +:+ question);;
  self ← get_scheduler;
  let tasks := map (λ node, ask_question node question) (nodes self) in
  responses ← gather choices tasks;
  self' ← get_scheduler;
  ask_question (scheduler_node self') (summary_request question responses).


(** *** Names for the parts of the calls

    The requests of a handle, the tasks of a call and the state in which
    they are created, so that statements can speak of them. *)

Definition query_request (n : NotebookLMNode) (question : string) : http_request :=
  HttpRequest (base_url +:+ "/notebooks/" +:+ fmt_opt (notebook_id n) +:+ "/query")
              (headers n) (JsonBody [("query", question)]).

Definition create_request (n : NotebookLMNode) (name : string) : http_request :=
  HttpRequest (base_url +:+ "/notebooks") (headers n)
              (JsonBody [("display_name", name +:+ " - Node " +:+ node_id n)]).

Definition not_created : exn := Exception "Notebook not created yet".

Definition upload_request (n : NotebookLMNode) (document_path content : string)
    : http_request :=
  HttpRequest (base_url +:+ "/notebooks/" +:+ fmt_opt (notebook_id n) +:+ "/documents")
              (headers n)
              (FormBody "document" (PyStr.last_segment "/" document_path) content
                        "application/octet-stream").

(** The uploads a call creates, in task order. *)
Definition upload_tasks (pool : list loc) (document_paths : list string)
    (per_node : Z) : list (M string) :=
  map (λ '(node, doc_path), upload_document node doc_path)
      (upload_plan pool document_paths per_node).

Definition distributed_message (document_paths : list string) (pool : list loc) : string :=
  "Distributed " +:+ PyStr.str_of_nat (length document_paths)
  +:+ " documents across " +:+ PyStr.str_of_nat (length pool) +:+ " nodes".

(** The tasks of a round, the state in which they are created, and the
    completion record of the round. *)
Definition query_tasks (pool : list loc) (question : string) : list (M string) :=
  map (λ node, ask_question node question) pool.

Definition started (question : string) (st : state) : state :=
  log_print ("Processing query: " +:+ question) st.

Definition round_record (choices : list nat) (question : string) (st : state)
    : list (nat * outcome string) * state :=
  completions choices (query_tasks (nodes (scheduler st)) question) (started question st).

(** A request of a pool member that carries the question itself. *)
Definition node_query (pool : list loc) (question : string)
    (ev : loc * http_request) : Prop :=
  ev.1 ∈ pool ∧ req_body ev.2 = JsonBody [("query", question)].

(** The block of the answer at position [i]. *)
Definition block_at (i : nat) (response : string) : string :=
  "Node " +:+ PyStr.str_of_nat (i + 1) +:+ " Response:" +:+ PyStr.nl +:+ response.

Definition synthesis_instruction : string :=
  "Please synthesize these responses into a comprehensive answer, highlighting agreements and differences.".

End Program.

(** ** Slices as the specification writes them *)

Section Slices.

Local Open Scope nat_scope.

Context {D : Type}.
Implicit Types (docs : list D) (c i : nat).

(** The [i]-th block of [c] documents. *)
Definition chunk docs c i : list D := take c (drop (i * c) docs).

(** The slice of the specification: [docs[i*c : min((i+1)*c, len(docs))]]. *)
Definition shard docs c i : list D :=
  take (min ((i + 1) * c) (length docs) - i * c) (drop (i * c) docs).

End Slices.

(** ** Relations between the state before and after a call *)

(** Whatever [m] returns, the states before and after are related. *)
Definition respects {A} (R : relation state) (m : M A) : Prop :=
  ∀ st o st', m st = (o, st') → R st st'.

(** The objects of the program are untouched: every handle keeps its
    fields and the scheduler keeps its pool and its aggregator. *)
Definition same_objects : relation state :=
  λ st st', heap st' = heap st ∧ scheduler st' = scheduler st.

(** The requests sent in between all satisfy [P]. *)
Definition logs_only (P : loc * http_request → Prop) : relation state :=
  λ st st', ∃ evs, net_log st' = net_log st ++ evs ∧ Forall P evs.

(** Nothing was printed in between. *)
Definition same_stdout : relation state :=
  λ st st', stdout st' = stdout st.

(** The request that the query of a handle sends, and the request that
    the upload of a document by a handle sends, for the handles of the
    store [h] and the files [fs]. *)
Definition query_event (h : list NotebookLMNode) (question : string) (node : loc)
    : option (loc * http_request) :=
  n ← h !! node; Some (node, query_request n question).

Definition upload_event (h : list NotebookLMNode) (fs : string → option string)
    (item : loc * string) : option (loc * http_request) :=
  n ← h !! item.1; content ← fs item.2;
  Some (item.1, upload_request n item.2 content).

(** The headers of a handle with the key [key]. *)
Definition auth_headers (key : string) : dict :=
  [ ("Authorization", "Bearer " +:+ key); ("Content-Type", "application/json") ].

(** Every handle keeps its key, and every request sent in between
    carries the headers of the handle that sent it. *)
Definition sends_with_headers : relation state :=
  λ st st',
    (∀ l n, heap st !! l = Some n →
            ∃ n', heap st' !! l = Some n' ∧ api_key n' = api_key n)
    ∧ ∃ evs, net_log st' = net_log st ++ evs
        ∧ Forall (λ ev, ∃ n, heap st' !! ev.1 = Some n
                          ∧ req_headers ev.2 = auth_headers (api_key n)) evs.

(** * Scenarios *)

Module Scenario.

Definition aggregator : NotebookLMNode := MkNode "KEY" "scheduler" (Some "agg").
Definition fresh_aggregator : NotebookLMNode := MkNode "KEY" "scheduler" None.
Definition node1 : NotebookLMNode := MkNode "KEY" "1" (Some "nb1").
Definition node2 : NotebookLMNode := MkNode "KEY" "2" (Some "nb2").

(** A scheduler with its aggregator at location 0 and two nodes. *)
Definition ready : state :=
  MkState [aggregator; node1; node2] (MkScheduler "KEY" [1; 2]%nat 0%nat) [] [].

(** The same, before [initialize_scheduler]. *)
Definition no_aggregator : state :=
  MkState [fresh_aggregator; node1; node2] (MkScheduler "KEY" [1; 2]%nat 0%nat) [] [].

(** The same, before [initialize_nodes]. *)
Definition no_pool : state :=
  MkState [aggregator] (MkScheduler "KEY" [] 0%nat) [] [].

Definition query_url (notebook : string) : string :=
  base_url +:+ "/notebooks/" +:+ notebook +:+ "/query".

Definition success (answer : string) : exn + http_response :=
  inr (HttpResponse 200 "OK"
         (Some [("name", "notebooks/abc"); ("document_id", "doc"); ("response", answer)])).

(** A service that answers every query with [X]. *)
Definition answers_X : list http_request → http_request → exn + http_response :=
  λ _ _, success "X".

(** A service that answers a query with the address it was sent to. *)
Definition echo : list http_request → http_request → exn + http_response :=
  λ _ r, success (req_url r).

(** A service that rejects the queries to one notebook. *)
Definition rejects (notebook : string)
    : list http_request → http_request → exn + http_response :=
  λ _ r, if String.eqb (req_url r) (query_url notebook)
         then inr (HttpResponse 500 "boom" None)
         else success "X".

(** What a query raises when the service rejects it. *)
Definition boom : exn := Exception "Failed to query notebook: boom".

(** A service that creates notebook [a] first and notebook [b] next. *)
Definition creates_a_then_b : list http_request → http_request → exn + http_response :=
  λ seen _, inr (HttpResponse 200 "OK"
                   (Some [("name", match seen with
                                   | [] => "notebooks/a"
                                   | _ => "notebooks/b"
                                   end)])).

(** A service that creates the notebooks of the scenarios, named after
    the display name it is given. *)
Definition provisioning : list http_request → http_request → exn + http_response :=
  λ _ r,
    match req_body r with
    | JsonBody [(_, display_name)] =>
        inr (HttpResponse 200 "OK"
               (Some [("name",
                       if String.eqb display_name "Scheduler Node - Node scheduler"
                       then "projects/p/notebooks/agg"
                       else if String.eqb display_name "A - Node 1"
                       then "projects/p/notebooks/nb1"
                       else "projects/p/notebooks/nb2")]))
    | _ => inr (HttpResponse 400 "bad request" None)
    end.

(** A service that refuses everything. *)
Definition refuses_all : list http_request → http_request → exn + http_response :=
  λ _ _, inr (HttpResponse 503 "unavailable" None).


(** A service that refuses the upload of the document [b]. *)
Definition refuses_b : list http_request → http_request → exn + http_response :=
  λ _ r,
    match req_body r with
    | FormBody _ "b" _ _ => inr (HttpResponse 500 "boom" None)
    | _ => success "X"
    end.

(** A disk without files. *)
Definition no_files : string → option string := λ _, None.

(** The state before any object exists. *)
Definition empty : state := MkState [] (MkScheduler EmptyString [] 0%nat) [] [].

Definition files : string → option string := λ _, Some "bytes".

Definition docs_abc : list string := ["a"; "b"; "c"].

End Scenario.

(** ** Two readings of the specification, to be tested against the code *)

(** "The error of a failed round names the failing node": some decoding
    of the exception gives the pool position of the one query that
    failed, in every round in which exactly one query fails. *)
Definition names_failing_node (failing_node : exn → nat) : Prop :=
  ∀ service choices question st k e0,
    (k, Raise e0) ∈ (round_record service choices question st).1 →
    (∀ i o, (i, o) ∈ (round_record service choices question st).1 →
            i ≠ k → ∃ a, o = Ok a) →
    ∀ e st', process_query service choices question st = (Raise e, st') →
             failing_node e = k.

(** "The blocks are followed by the question": the question occurs in
    the prompt somewhere after the label of the first block. *)
Definition question_after_blocks (question prompt : string) : Prop :=
  ∃ pre mid post,
    prompt = pre +:+ "Node 1 Response" +:+ mid +:+ question +:+ post.

(** * Properties *)

(** ** Running a computation step by step *)

Lemma bind_run {A B} (m : M A) (k : A → M B) st :
  (m ≫= k) st =
    match m st with
    | (Ok a, st') => k a st'
    | (Raise e, st') => (Raise e, st')
    end.
Proof. reflexivity. Qed.

Lemma bind_inv {A B} (m : M A) (k : A → M B) st o st' :
  (m ≫= k) st = (o, st') →
  (∃ a st1, m st = (Ok a, st1) ∧ k a st1 = (o, st')) ∨
  (∃ e, m st = (Raise e, st') ∧ o = Raise e).
Proof.
  rewrite bind_run. destruct (m st) as [[a|e] st1]; intros H.
  - left. eauto.
  - right. inversion H; subst. eauto.
Qed.

(** ** Computations that respect a preorder on states

    Both frame properties (what a call leaves alone) and trace properties
    (what a call may add to the request log) are preorders on states that
    every step respects, so one set of lemmas serves both. *)


Section Respects.

Context (R : relation state) `{!PreOrder R}.

Lemma respects_ret {A} (a : A) : respects R (mret a).
Proof. intros st o st' [= _ <-]. reflexivity. Qed.

Lemma respects_raise {A} e : respects R (@raise A e).
Proof. intros st o st' [= _ <-]. reflexivity. Qed.

Lemma respects_get_state : respects R get_state.
Proof. intros st o st' [= _ <-]. reflexivity. Qed.

Lemma respects_modify f : (∀ st, R st (f st)) → respects R (modify f).
Proof. intros Hf st o st' [= _ <-]. apply Hf. Qed.

Lemma respects_bind {A B} (m : M A) (k : A → M B) :
  respects R m → (∀ a, respects R (k a)) → respects R (m ≫= k).
Proof.
  intros Hm Hk st o st' H.
  apply bind_inv in H as [(a & st1 & H1 & H2)|(e & H1 & _)].
  - etransitivity; [eapply Hm|eapply Hk]; eauto.
  - eapply Hm; eauto.
Qed.

Lemma respects_get_node l : respects R (get_node l).
Proof.
  apply respects_bind; [apply respects_get_state|].
  intros st. destruct (heap st !! l); [apply respects_ret|apply respects_raise].
Qed.

Lemma respects_getitem d key : respects R (getitem d key).
Proof.
  unfold getitem. destruct (dict_get d key);
    [apply respects_ret|apply respects_raise].
Qed.

Lemma respects_response_json r : respects R (response_json r).
Proof.
  unfold response_json. destruct (json r);
    [apply respects_ret|apply respects_raise].
Qed.

Lemma respects_read_file fs path : respects R (read_file fs path).
Proof.
  unfold read_file. destruct (fs path);
    [apply respects_ret|apply respects_raise].
Qed.

Lemma respects_run_tasks {A} n (pending : list (nat * M A)) choices :
  Forall (λ p, respects R p.2) pending →
  ∀ st done st', run_tasks n pending choices st = (done, st') → R st st'.
Proof.
  revert pending choices.
  induction n as [|n IH]; intros pending choices Hall st done st'; simpl.
  - intros [= _ <-]. reflexivity.
  - destruct (pending !! _) as [[i t]|] eqn:Hc.
    + destruct (t st) as [o st1] eqn:Ht.
      destruct (run_tasks n _ _ st1) as [rest st2] eqn:Hr.
      intros [= _ <-].
      etransitivity.
      * eapply (proj1 (Forall_lookup _ _) Hall _ _ Hc). exact Ht.
      * eapply IH; [|exact Hr]. by apply Forall_delete.
    + intros [= _ <-]. reflexivity.
Qed.

Lemma respects_gather {A} choices (tasks : list (M A)) :
  Forall (respects R) tasks → respects R (gather choices tasks).
Proof.
  intros Hall st o st'. unfold gather, completions.
  destruct (run_tasks _ _ _ st) as [done st1] eqn:Hr.
  intros H. assert (st' = st1) as -> by (destruct (first_exception done); congruence).
  eapply respects_run_tasks; [|exact Hr].
  unfold PyStr.enumerate. apply Forall_forall. intros [i t] Hin.
  apply elem_of_zip_r in Hin. eapply Forall_forall in Hall; eauto.
Qed.

End Respects.

(** ** The two preorders *)

#[global] Instance same_objects_preorder : PreOrder same_objects.
Proof.
  split.
  - by intros st.
  - intros st1 st2 st3 [H1 H2] [H3 H4]. split; congruence.
Qed.

#[global] Instance logs_only_preorder P : PreOrder (logs_only P).
Proof.
  split.
  - intros st. exists []. by rewrite app_nil_r.
  - intros st1 st2 st3 (e1 & H1 & F1) (e2 & H2 & F2).
    exists (e1 ++ e2). rewrite H2, H1, <- app_assoc. split; [done|].
    by apply Forall_app.
Qed.

Section NodeMethods.

Variable service : list http_request → http_request → exn + http_response.
Variable fs : string → option string.

Lemma post_run self r st :
  post service self r st =
    (match service (net_log st).*2 r with
     | inl e => Raise e
     | inr resp => Ok resp
     end, log_request self r st).
Proof.
  unfold post. rewrite bind_run. cbn. rewrite bind_run. cbn.
  by destruct (service _ r).
Qed.

Lemma post_same_objects self r : respects same_objects (post service self r).
Proof. intros st o st'. rewrite post_run. intros [= _ <-]. by split. Qed.

Lemma post_logs_only (P : loc * http_request → Prop) self r :
  P (self, r) → respects (logs_only P) (post service self r).
Proof.
  intros HP st o st'. rewrite post_run. intros [= _ <-].
  exists [(self, r)]. split; [done|]. by constructor.
Qed.

Section Generic.

Context (R : relation state) `{!PreOrder R}.

Lemma respects_ask_question self question :
  (∀ r, req_body r = JsonBody [("query", question)] →
        respects R (post service self r)) →
  respects R (ask_question service self question).
Proof.
  intros Hpost. unfold ask_question.
  apply respects_bind; [done|by apply respects_get_node|]. intros n.
  destruct (falsy _); [by apply respects_raise|].
  apply respects_bind; [done|by apply Hpost|]. intros resp.
  destruct (status resp =? 200); [|by apply respects_raise].
  apply respects_bind; [done|by apply respects_response_json|]. intros d.
  by apply respects_getitem.
Qed.

Lemma respects_upload_document self path :
  (∀ r, respects R (post service self r)) →
  respects R (upload_document service fs self path).
Proof.
  intros Hpost. unfold upload_document.
  apply respects_bind; [done|by apply respects_get_node|]. intros n.
  destruct (falsy _); [by apply respects_raise|].
  apply respects_bind; [done|by apply respects_read_file|]. intros bytes.
  apply respects_bind; [done|by apply Hpost|]. intros resp.
  destruct (status resp =? 200); [|by apply respects_raise].
  apply respects_bind; [done|by apply respects_response_json|]. intros d.
  by apply respects_getitem.
Qed.

End Generic.

Lemma ask_question_same_objects self question :
  respects same_objects (ask_question service self question).
Proof.
  apply respects_ask_question; [apply _|]. intros r _. apply post_same_objects.
Qed.

Lemma upload_document_same_objects self path :
  respects same_objects (upload_document service fs self path).
Proof.
  apply respects_upload_document; [apply _|]. intros r. apply post_same_objects.
Qed.

Lemma print_same_objects line : respects same_objects (print line).
Proof. apply respects_modify. by split. Qed.

Lemma get_scheduler_run st : get_scheduler st = (Ok (scheduler st), st).
Proof. reflexivity. Qed.

Lemma get_scheduler_respects R `{!PreOrder R} : respects R get_scheduler.
Proof. intros st o st'. rewrite get_scheduler_run. intros [= _ <-]. reflexivity. Qed.

Lemma distribute_documents_same_objects choices document_paths documents_per_node :
  respects same_objects
    (distribute_documents service fs choices document_paths documents_per_node).
Proof.
  unfold distribute_documents.
  apply respects_bind; [apply _|by apply get_scheduler_respects; apply _|].
  intros self. destruct (over_capacity _ _ _); [by apply respects_raise; apply _|].
  apply respects_bind; [apply _| |intros _; apply print_same_objects].
  apply respects_gather; [apply _|].
  apply Forall_fmap, Forall_forall. intros [node doc] _.
  apply upload_document_same_objects.
Qed.

Lemma process_query_same_objects choices question :
  respects same_objects (process_query service choices question).
Proof.
  unfold process_query.
  apply respects_bind; [apply _|apply print_same_objects|]. intros _.
  apply respects_bind; [apply _|by apply get_scheduler_respects; apply _|].
  intros self.
  apply respects_bind; [apply _| |].
  - apply respects_gather; [apply _|].
    apply Forall_fmap, Forall_forall. intros node _.
    apply ask_question_same_objects.
  - intros responses.
    apply respects_bind; [apply _|by apply get_scheduler_respects; apply _|].
    intros self'. apply ask_question_same_objects.
Qed.

End NodeMethods.

(** ** The completion record of a gather *)

Section Gather.

Context {A : Type}.
Implicit Types (pending : list (nat * M A)) (done : list (nat * outcome A)).

Lemma enumerate_fst {B} (l : list B) : (PyStr.enumerate l).*1 = seq 0 (length l).
Proof. unfold PyStr.enumerate. apply fst_zip. by rewrite length_seq. Qed.

Lemma enumerate_snd {B} (l : list B) : (PyStr.enumerate l).*2 = l.
Proof. unfold PyStr.enumerate. apply snd_zip. by rewrite length_seq. Qed.

Lemma enumerate_lookup {B} (l : list B) i x :
  PyStr.enumerate l !! i = Some x ↔ x.1 = i ∧ l !! i = Some x.2.
Proof.
  unfold PyStr.enumerate. destruct x as [j b]. rewrite lookup_zip_with_Some. simpl.
  split.
  - intros (j' & b' & [= <- <-] & Hj & Hb). apply lookup_seq in Hj as [-> _]. done.
  - intros [-> Hb]. exists i, b. split; [done|]. split; [|done].
    apply lookup_seq. split; [done|]. by eapply lookup_lt_Some.
Qed.

Lemma choice_in_range pending (c : nat) :
  pending ≠ [] → is_Some (pending !! (c mod length pending)%nat).
Proof.
  intros Hne. apply lookup_lt_is_Some. apply Nat.mod_upper_bound.
  destruct pending; simpl; [done|lia].
Qed.

Lemma run_tasks_S n pending choices st :
  run_tasks (S n) pending choices st =
    match (pending !! (hd 0 choices mod length pending)%nat
           : option (nat * M A)) with
    | None => ([], st)
    | Some (i, task) =>
        let '(o, st1) := task st in
        let '(rest, st2) :=
          run_tasks n (delete (hd 0 choices mod length pending)%nat pending)
                    (tl choices) st1 in
        ((i, o) :: rest, st2)
    end.
Proof. reflexivity. Qed.

(** Every pending task completes exactly once. *)
Lemma run_tasks_indices n pending choices st done st' :
  n = length pending →
  run_tasks n pending choices st = (done, st') →
  done.*1 ≡ₚ pending.*1.
Proof.
  revert pending choices st done st'.
  induction n as [|n IH]; intros pending choices st done st' Hn.
  - intros [= <- _]. symmetry in Hn. by apply nil_length_inv in Hn as ->.
  - assert (pending ≠ []) as Hne by (intros ->; done).
    destruct (choice_in_range pending (hd 0%nat choices) Hne) as [[i t] Hc].
    rewrite run_tasks_S, Hc. destruct (t st) as [o st1].
    destruct (run_tasks n _ _ st1) as [rest st2] eqn:Hr.
    intros [= <- _]. simpl.
    rewrite (delete_Permutation pending _ _ Hc). simpl. f_equiv.
    eapply IH; [|exact Hr].
    rewrite length_delete by eauto. lia.
Qed.

(** Every entry of the record is the outcome of its task, run from some
    state reached on the way. *)
Lemma run_tasks_origin (R : relation state) `{!PreOrder R} n pending choices st done st' :
  Forall (λ p, respects R p.2) pending →
  run_tasks n pending choices st = (done, st') →
  ∀ i o, (i, o) ∈ done →
    ∃ t st1 st2, (i, t) ∈ pending ∧ R st st1 ∧ t st1 = (o, st2).
Proof.
  revert pending choices st done st'.
  induction n as [|n IH]; intros pending choices st done st' Hall; simpl.
  - intros [= <- _] i o Hin. by apply elem_of_nil in Hin.
  - destruct (pending !! _) as [[j t]|] eqn:Hc.
    + destruct (t st) as [o' st1] eqn:Ht.
      destruct (run_tasks n _ _ st1) as [rest st2] eqn:Hr.
      intros [= <- _] i o Hin. apply elem_of_cons in Hin as [[= -> ->]|Hin].
      * exists t, st, st1. split; [by eapply list_elem_of_lookup_2|]. done.
      * destruct (IH _ _ _ _ _ (Forall_delete _ _ _ Hall) Hr i o Hin)
          as (t' & s1 & s2 & Hin' & HR & Hrun).
        exists t', s1, s2. split; [by eapply list_elem_of_delete_inv|].
        split; [|done]. etransitivity; [|exact HR].
        eapply (proj1 (Forall_lookup _ _) Hall _ _ Hc). exact Ht.
    + intros [= <- _] i o Hin. by apply elem_of_nil in Hin.
Qed.

Lemma completions_indices choices (tasks : list (M A)) st :
  (completions choices tasks st).1.*1 ≡ₚ seq 0 (length tasks).
Proof.
  unfold completions.
  destruct (run_tasks _ _ _ st) as [done st'] eqn:Hr. simpl.
  rewrite <- enumerate_fst. eapply run_tasks_indices; [|exact Hr].
  unfold PyStr.enumerate. rewrite length_zip_with, length_seq. lia.
Qed.

Lemma completions_NoDup choices (tasks : list (M A)) st :
  NoDup (completions choices tasks st).1.*1.
Proof. rewrite completions_indices. apply NoDup_seq. Qed.

Lemma completions_complete choices (tasks : list (M A)) st i :
  (i < length tasks)%nat → ∃ o, (i, o) ∈ (completions choices tasks st).1.
Proof.
  intros Hi.
  assert (i ∈ (completions choices tasks st).1.*1) as Hin.
  { rewrite completions_indices. apply elem_of_seq. lia. }
  apply list_elem_of_fmap in Hin as ([j o] & -> & Hin). eauto.
Qed.

Lemma completions_origin (R : relation state) `{!PreOrder R} choices
    (tasks : list (M A)) st i o :
  Forall (respects R) tasks →
  (i, o) ∈ (completions choices tasks st).1 →
  ∃ t st1 st2, tasks !! i = Some t ∧ R st st1 ∧ t st1 = (o, st2).
Proof.
  intros Hall Hin. unfold completions in Hin.
  destruct (run_tasks _ _ _ st) as [done st'] eqn:Hr. simpl in Hin.
  destruct (run_tasks_origin R _ _ _ _ _ _
              ltac:(apply Forall_forall; intros [j t] Hj;
                    apply elem_of_zip_r in Hj;
                    by eapply (proj1 (Forall_forall _ _) Hall))
              Hr i o Hin) as (t & s1 & s2 & Ht & HR & Hrun).
  exists t, s1, s2. split; [|done].
  apply list_elem_of_lookup in Ht as [p Hp].
  apply enumerate_lookup in Hp as [Hi Hp]. simpl in *. by subst.
Qed.

(** Every completion order is the order of some choice sequence. *)
Lemma run_tasks_any_order (order : list nat) :
  ∀ pending st, pending.*1 ≡ₚ order →
    ∃ choices, (run_tasks (length pending) pending choices st).1.*1 = order.
Proof.
  induction order as [|i order IH]; intros pending st Hperm.
  - apply Permutation_nil_r in Hperm. apply fmap_nil_inv in Hperm as ->.
    by exists [].
  - assert (i ∈ pending.*1) as Hin by (rewrite Hperm; left).
    apply list_elem_of_lookup in Hin as [c Hc].
    apply list_lookup_fmap_Some in Hc as ([j t] & Hj & Hc). simpl in Hj. subst j.
    pose proof (lookup_lt_Some _ _ _ Hc) as Hlt.
    destruct (length pending) as [|n] eqn:Hlen; [lia|].
    assert (length (delete c pending) = n) as Hn
      by (rewrite length_delete by eauto; lia).
    assert ((delete c pending).*1 ≡ₚ order) as Hrest.
    { apply (Permutation_cons_inv (a := i)). rewrite <- Hperm.
      rewrite (delete_Permutation pending c (i, t) Hc) at 2. done. }
    destruct (t st) as [o st1] eqn:Ht.
    destruct (IH (delete c pending) st1 Hrest) as [choices Hchoices].
    exists (c :: choices). rewrite run_tasks_S. simpl hd. simpl tl.
    rewrite Hlen, Nat.mod_small by lia. rewrite Hc, Ht.
    rewrite Hn in Hchoices.
    destruct (run_tasks n _ choices st1) as [rest st2]. simpl in *.
    f_equal. exact Hchoices.
Qed.

Lemma completions_any_order (tasks : list (M A)) (order : list nat) st :
  order ≡ₚ seq 0 (length tasks) →
  ∃ choices, (completions choices tasks st).1.*1 = order.
Proof.
  intros Hperm. unfold completions.
  destruct (run_tasks_any_order order (PyStr.enumerate tasks) st) as [choices H].
  - by rewrite enumerate_fst.
  - exists choices. rewrite <- H. do 3 f_equal.
    unfold PyStr.enumerate. rewrite length_zip_with, length_seq. lia.
Qed.

Lemma first_exception_None done :
  first_exception done = None ↔ ∀ i o, (i, o) ∈ done → ∃ a, o = Ok a.
Proof.
  induction done as [|[j [a|e]] done IH]; simpl.
  - split; [|done]. intros _ i o Hin. by apply elem_of_nil in Hin.
  - rewrite IH. split.
    + intros H i o Hin. apply elem_of_cons in Hin as [[= -> ->]|Hin]; eauto.
    + intros H i o Hin. eapply H. by right.
  - split; [done|]. intros H. destruct (H j (Raise e)) as [a Ha]; [by left|done].
Qed.

(** The only failing task decides the exception. *)
Lemma first_exception_single done k e :
  NoDup done.*1 →
  (k, Raise e) ∈ done →
  (∀ i o, (i, o) ∈ done → i ≠ k → ∃ a, o = Ok a) →
  first_exception done = Some e.
Proof.
  induction done as [|[j o] done IH]; simpl; intros Hnd Hin Hothers.
  - by apply elem_of_nil in Hin.
  - apply NoDup_cons in Hnd as [Hj Hnd].
    apply elem_of_cons in Hin as [[= <- <-]|Hin]; [done|].
    assert (j ≠ k) as Hjk.
    { intros ->. apply Hj. apply list_elem_of_fmap. by exists (k, Raise e). }
    destruct (Hothers j o) as [a ->]; [by left|done|].
    apply IH; [done|done|]. intros i o Hi. apply Hothers. by right.
Qed.

Lemma result_of_elem done i a :
  NoDup done.*1 → (i, Ok a) ∈ done → result_of done i = Some a.
Proof.
  induction done as [|[j o] done IH]; simpl; intros Hnd Hin.
  - by apply elem_of_nil in Hin.
  - apply NoDup_cons in Hnd as [Hj Hnd].
    apply elem_of_cons in Hin as [[= <- <-]|Hin].
    + by rewrite Nat.eqb_refl.
    + destruct (Nat.eqb_spec i j) as [->|_]; [|by apply IH].
      exfalso. apply Hj. apply list_elem_of_fmap. by exists (j, Ok a).
Qed.

Lemma omap_total {B C} (f : B → option C) (l : list B) :
  (∀ x, x ∈ l → is_Some (f x)) →
  Forall2 (λ x y, f x = Some y) l (omap f l).
Proof.
  induction l as [|x l IH]; intros H; simpl; [constructor|].
  destruct (H x) as [y Hy]; [by left|]. rewrite Hy. constructor; [done|].
  apply IH. intros z Hz. apply H. by right.
Qed.

(** The results of a gather that succeeds, slot by slot. *)
Lemma gather_Ok choices (tasks : list (M A)) st rs st' :
  gather choices tasks st = (Ok rs, st') →
  first_exception (completions choices tasks st).1 = None ∧
  st' = (completions choices tasks st).2 ∧
  length rs = length tasks ∧
  ∀ i a, (i, Ok a) ∈ (completions choices tasks st).1 → rs !! i = Some a.
Proof.
  unfold gather.
  pose proof (completions_NoDup choices tasks st) as Hnd.
  pose proof (completions_complete choices tasks st) as Hall.
  pose proof (completions_indices choices tasks st) as Hperm.
  destruct (completions choices tasks st) as [done st1]. simpl in *.
  destruct (first_exception done) eqn:Hfe; [done|]. intros [= <- <-].
  assert (Forall2 (λ i a, result_of done i = Some a)
            (seq 0 (length tasks)) (omap (result_of done) (seq 0 (length tasks))))
    as HF.
  { apply omap_total. intros i Hi. apply elem_of_seq in Hi.
    destruct (Hall i) as [o Ho]; [lia|].
    destruct (proj1 (first_exception_None done) Hfe i o Ho) as [a ->].
    rewrite (result_of_elem done i a); eauto. }
  split; [done|]. split; [done|]. split.
  - apply Forall2_length in HF. by rewrite length_seq in HF.
  - intros i a Hin.
    assert (i < length tasks)%nat as Hi.
    { assert (i ∈ done.*1) as Hin' by (apply list_elem_of_fmap; by exists (i, Ok a)).
      rewrite Hperm in Hin'. apply elem_of_seq in Hin'. lia. }
    destruct (Forall2_lookup_l _ _ _ i i HF) as (y & Hy & Hres).
    { apply lookup_seq. lia. }
    rewrite (result_of_elem done i a) in Hres by done. congruence.
Qed.

End Gather.

(** ** Sharding *)

Section Sharding.

Local Open Scope nat_scope.

Context {D : Type}.
Implicit Types (docs : list D) (c i n : nat).



Lemma take_min_length {B} (l : list B) c : take (min c (length l)) l = take c l.
Proof.
  destruct (Nat.le_gt_cases c (length l)) as [H|H].
  - by rewrite Nat.min_l.
  - rewrite Nat.min_r by lia. by rewrite !take_ge by lia.
Qed.

Lemma shard_chunk docs c i : shard docs c i = chunk docs c i.
Proof.
  unfold shard, chunk.
  rewrite <- (take_min_length (drop (i * c) docs) c), length_drop.
  f_equal. lia.
Qed.

Lemma slice_chunk docs (C : Z) i :
  (0 ≤ C)%Z →
  PyStr.slice docs (Z.of_nat i * C)
    (Z.min (Z.of_nat i * C + C) (Z.of_nat (length docs)))
  = chunk docs (Z.to_nat C) i.
Proof.
  intros HC. unfold PyStr.slice, PyStr.clamp_index, chunk.
  set (len := length docs).
  assert (0 ≤ Z.of_nat i * C)%Z as Hs by lia.
  destruct (Z.ltb_spec (Z.of_nat i * C) 0) as [?|_]; [lia|].
  destruct (Z.ltb_spec (Z.min (Z.of_nat i * C + C) (Z.of_nat len)) 0) as [?|_]; [lia|].
  assert (Z.of_nat i * C = Z.of_nat (i * Z.to_nat C))%Z as Hic by lia.
  destruct (Nat.le_gt_cases len (i * Z.to_nat C)) as [Hge|Hlt].
  - rewrite (drop_ge docs (i * Z.to_nat C)) by done.
    rewrite drop_ge by (fold len; lia). by rewrite !take_nil.
  - replace (Z.to_nat (Z.max 0 (Z.min (Z.of_nat len) (Z.of_nat i * C))))
      with (i * Z.to_nat C) by lia.
    rewrite <- (take_min_length (drop (i * Z.to_nat C) docs) (Z.to_nat C)), length_drop.
    fold len. f_equal. lia.
Qed.

Lemma concat_chunks docs c n :
  concat (map (chunk docs c) (seq 0 n)) = take (n * c) docs.
Proof.
  induction n as [|n IH]; [done|].
  rewrite seq_S, map_app, concat_app, IH. simpl. rewrite app_nil_r.
  unfold chunk. rewrite take_take_drop. f_equal. lia.
Qed.

Lemma flat_map_enumerate {B C} (f : nat * B → list C) (l : list B) k :
  flat_map f (zip (seq k (length l)) l) = concat (imap (λ i x, f (k + i, x)) l).
Proof.
  revert k f. induction l as [|x l IH]; intros k f; [done|]. simpl.
  rewrite Nat.add_0_r. f_equal. rewrite IH. f_equal.
  apply imap_ext. intros i y _. simpl. do 2 f_equal. lia.
Qed.

Lemma concat_imap_snd {B C} (g : nat → list C) (l : list B) k :
  (concat (imap (λ i (x : B), map (pair x) (g (k + i))) l)).*2
  = concat (map g (seq k (length l))).
Proof.
  revert k. induction l as [|x l IH]; intros k; [done|]. simpl.
  rewrite fmap_app, Nat.add_0_r. f_equal.
  - rewrite <- list_fmap_compose. simpl. apply list_fmap_id.
  - rewrite <- (IH (S k)). do 2 f_equal. apply imap_ext. intros i y _. simpl.
    do 2 f_equal. lia.
Qed.

End Sharding.

Lemma node_docs_shard (document_paths : list string) (C : Z) (i : nat) :
  0 ≤ C → node_docs document_paths C i = shard document_paths (Z.to_nat C) i.
Proof. intros HC. unfold node_docs. by rewrite slice_chunk, shard_chunk. Qed.

Lemma upload_plan_blocks pool (document_paths : list string) (C : Z) :
  upload_plan pool document_paths C
  = concat (imap (λ i node, map (pair node) (node_docs document_paths C i)) pool).
Proof.
  unfold upload_plan, PyStr.enumerate.
  by rewrite (flat_map_enumerate
    (λ '(i, node), map (pair node) (node_docs document_paths C i)) pool 0).
Qed.

(** A capacity that leaves room for the documents is not negative, unless there
    is neither a node nor a document. *)
Lemma within_capacity_cases (pool : list loc) (document_paths : list string) (C : Z) :
  Z.of_nat (length document_paths) ≤ Z.of_nat (length pool) * C →
  0 ≤ C ∨ (pool = [] ∧ document_paths = []).
Proof.
  intros H. destruct (Z.le_gt_cases 0 C) as [?|HC]; [by left|right].
  destruct pool as [|node pool]; simpl in *.
  - split; [done|]. destruct document_paths; simpl in *; [done|lia].
  - exfalso. nia.
Qed.

Lemma shards_cover (document_paths : list string) (c n : nat) :
  (length document_paths ≤ n * c)%nat →
  concat (map (shard document_paths c) (seq 0 n)) = document_paths.
Proof.
  intros H.
  rewrite (map_ext _ (chunk document_paths c)) by (intros; apply shard_chunk).
  rewrite concat_chunks. by apply take_ge.
Qed.

(** ** Distribution *)

Section Distribute.

Variable service : list http_request → http_request → exn + http_response.
Variable fs : string → option string.



Lemma distribute_documents_run choices document_paths documents_per_node st :
  let per_node := default default_documents_per_node documents_per_node in
  let pool := nodes (scheduler st) in
  distribute_documents service fs choices document_paths documents_per_node st =
    if over_capacity pool document_paths per_node then
      (Raise (Exception (capacity_message (Z.of_nat (length pool) * per_node))), st)
    else
      (gather choices (upload_tasks service fs pool document_paths per_node)
         ≫= λ _, print (distributed_message document_paths pool)) st.
Proof.
  intros per_node pool. unfold distribute_documents.
  rewrite bind_run, get_scheduler_run. fold per_node pool.
  by destruct (over_capacity pool document_paths per_node).
Qed.

Lemma distribute_documents_with choices document_paths C st :
  distribute_documents service fs choices document_paths (Some C) st =
    if over_capacity (nodes (scheduler st)) document_paths C then
      (Raise (Exception
         (capacity_message (Z.of_nat (length (nodes (scheduler st))) * C))), st)
    else
      (gather choices (upload_tasks service fs (nodes (scheduler st)) document_paths C)
         ≫= λ _, print (distributed_message document_paths (nodes (scheduler st)))) st.
Proof. apply distribute_documents_run. Qed.

Lemma over_capacity_true pool (document_paths : list string) C :
  over_capacity pool document_paths C = true
  ↔ Z.of_nat (length document_paths) > Z.of_nat (length pool) * C.
Proof. unfold over_capacity. rewrite Z.gtb_ltb, Z.ltb_lt. lia. Qed.

Lemma over_capacity_false pool (document_paths : list string) C :
  over_capacity pool document_paths C = false
  ↔ Z.of_nat (length document_paths) ≤ Z.of_nat (length pool) * C.
Proof. unfold over_capacity. rewrite Z.gtb_ltb, Z.ltb_ge. lia. Qed.

(** A call within capacity fails only if one of its uploads fails. *)
Lemma distribute_documents_Ok choices document_paths documents_per_node st :
  let per_node := default default_documents_per_node documents_per_node in
  let pool := nodes (scheduler st) in
  over_capacity pool document_paths per_node = false →
  first_exception
    (completions choices (upload_tasks service fs pool document_paths per_node) st).1 = None →
  ∃ st', distribute_documents service fs choices document_paths documents_per_node st
         = (Ok (), st').
Proof.
  intros per_node pool Hcap Hfe.
  rewrite distribute_documents_run. fold per_node pool. rewrite Hcap.
  rewrite bind_run. unfold gather.
  destruct (completions _ _ st) as [done st1]. simpl in Hfe. rewrite Hfe.
  eauto.
Qed.

(** C1. Sharding correctness.  When the documents fit
    ([len(D) <= N*C] for the pool size [N] and the capacity [C]),
    [distribute_documents] passes its check and creates exactly the
    planned uploads; the plan gives the node at pool position [i] the
    contiguous slice [D[i*C : min((i+1)*C, len(D))]], block after block in
    pool order, so that the shards put end to end are [D] itself: every
    document once, in input order.  A position whose slice is empty gets
    no upload, and the call fails only if an upload it issued fails. *)
Theorem distribute_documents_sharding choices (document_paths : list string)
    (C : Z) st :
  let pool := nodes (scheduler st) in
  let slice_of := shard document_paths (Z.to_nat C) in
  Z.of_nat (length document_paths) ≤ Z.of_nat (length pool) * C →
  distribute_documents service fs choices document_paths (Some C) st
    = (gather choices (upload_tasks service fs pool document_paths C)
         ≫= λ _, print (distributed_message document_paths pool)) st
  ∧ (∀ i, node_docs document_paths C i = slice_of i)
  ∧ upload_plan pool document_paths C
    = concat (imap (λ i node, map (pair node) (slice_of i)) pool)
  ∧ concat (map slice_of (seq 0 (length pool))) = document_paths
  ∧ (upload_plan pool document_paths C).*2 = document_paths
  ∧ (∀ i node, pool !! i = Some node → slice_of i = [] →
       map (pair node) (node_docs document_paths C i) = [])
  ∧ (first_exception
       (completions choices (upload_tasks service fs pool document_paths C) st).1 = None →
     ∃ st', distribute_documents service fs choices document_paths (Some C) st
            = (Ok (), st')).
Proof.
  intros pool slice_of Hfit.
  assert (∀ i, node_docs document_paths C i = slice_of i) as Hslice.
  { intros i. destruct (within_capacity_cases _ _ _ Hfit) as [HC|[_ ->]].
    - by apply node_docs_shard.
    - unfold slice_of, shard, node_docs, PyStr.slice. by rewrite !drop_nil, !take_nil. }
  assert (concat (map slice_of (seq 0 (length pool))) = document_paths) as Hcover.
  { destruct (within_capacity_cases _ _ _ Hfit) as [HC|[_ ->]].
    - apply shards_cover. nia.
    - induction (seq 0 (length pool)) as [|i l IH]; [done|].
      simpl. rewrite IH. unfold slice_of, shard. by rewrite drop_nil, take_nil. }
  assert (upload_plan pool document_paths C
          = concat (imap (λ i node, map (pair node) (slice_of i)) pool)) as Hplan.
  { rewrite upload_plan_blocks. f_equal. apply imap_ext. intros i node _.
    simpl. by rewrite Hslice. }
  split; [|split; [done|split; [done|split; [done|split; [|split]]]]].
  - rewrite distribute_documents_with. fold pool.
    by rewrite (proj2 (over_capacity_false _ _ _) Hfit).
  - rewrite Hplan, <- Hcover. apply (concat_imap_snd slice_of pool 0%nat).
  - intros i node _ Hempty. by rewrite Hslice, Hempty.
  - apply (distribute_documents_Ok choices document_paths (Some C) st).
    by apply over_capacity_false.
Qed.

(** C2. Capacity rejection.  When [len(D) > N*C], the call raises the
    capacity exception and leaves the state as it found it: no upload
    task has been created and no request has been sent. *)
Theorem distribute_documents_capacity_exceeded choices
    (document_paths : list string) (C : Z) st :
  Z.of_nat (length document_paths) > Z.of_nat (length (nodes (scheduler st))) * C →
  distribute_documents service fs choices document_paths (Some C) st
    = (Raise (Exception
         (capacity_message (Z.of_nat (length (nodes (scheduler st))) * C))), st)
  ∧ net_log
      (distribute_documents service fs choices document_paths (Some C) st).2
    = net_log st.
Proof.
  intros Hover. apply over_capacity_true in Hover.
  rewrite distribute_documents_with. by rewrite Hover.
Qed.

(** C10. The default capacity.  A call that leaves [documents_per_node]
    out is the call with 25: it is rejected exactly when
    [len(D) > 25*N], and otherwise the node at position [i] is given
    [D[25*i : min(25*(i+1), len(D))]]. *)
Theorem distribute_documents_default_capacity choices
    (document_paths : list string) st :
  let pool := nodes (scheduler st) in
  let N := Z.of_nat (length pool) in
  let len := Z.of_nat (length document_paths) in
  distribute_documents service fs choices document_paths None st
    = distribute_documents service fs choices document_paths (Some 25) st
  ∧ (over_capacity pool document_paths 25 = false ↔ len ≤ 25 * N)
  ∧ (len > 25 * N →
       distribute_documents service fs choices document_paths None st
       = (Raise (Exception (capacity_message (N * 25))), st))
  ∧ (len ≤ 25 * N →
       distribute_documents service fs choices document_paths None st
       = (gather choices (upload_tasks service fs pool document_paths 25)
            ≫= λ _, print (distributed_message document_paths pool)) st
       ∧ (∀ i, node_docs document_paths 25 i = shard document_paths 25 i)
       ∧ upload_plan pool document_paths 25
         = concat (imap (λ i node, map (pair node) (shard document_paths 25 i)) pool)).
Proof.
  intros pool N len.
  split; [done|]. split; [rewrite over_capacity_false; lia|]. split.
  - intros Hover. change (distribute_documents service fs choices document_paths None st)
      with (distribute_documents service fs choices document_paths (Some 25) st).
    rewrite distribute_documents_with. fold pool.
    rewrite (proj2 (over_capacity_true pool _ _)); [done|].
    fold N len. lia.
  - intros Hfit.
    assert (∀ i, node_docs document_paths 25 i = shard document_paths 25 i) as Hs
      by (intros i; by apply (node_docs_shard document_paths 25 i)).
    split; [|split; [done|]].
    + change (distribute_documents service fs choices document_paths None st)
        with (distribute_documents service fs choices document_paths (Some 25) st).
      rewrite distribute_documents_with. fold pool.
      rewrite (proj2 (over_capacity_false pool _ _)); [done|]. fold N len. lia.
    + rewrite upload_plan_blocks. f_equal. apply imap_ext. intros i node _.
      simpl. by rewrite Hs.
Qed.

End Distribute.

(** ** One round trip of a handle *)

Section RoundTrips.

Variable service : list http_request → http_request → exn + http_response.




Lemma get_node_run l st :
  get_node l st =
    match heap st !! l with
    | Some n => (Ok n, st)
    | None => (Raise InvalidReference, st)
    end.
Proof.
  unfold get_node. rewrite bind_run. cbn. by destruct (heap st !! l).
Qed.

(** [ask_question] in full: what it returns and what it sends. *)
Lemma ask_question_run self question st :
  ask_question service self question st =
    match heap st !! self with
    | None => (Raise InvalidReference, st)
    | Some n =>
        if falsy (notebook_id n) then (Raise not_created, st)
        else
          let r := query_request n question in
          (match service (net_log st).*2 r with
           | inl e => Raise e
           | inr resp =>
               if status resp =? 200 then
                 match json resp with
                 | None => Raise ContentTypeError
                 | Some data =>
                     match dict_get data "response" with
                     | Some answer => Ok answer
                     | None => Raise (KeyError "response")
                     end
                 end
               else Raise (Exception ("Failed to query notebook: " +:+ text resp))
           end, log_request self r st)
    end.
Proof.
  unfold ask_question. rewrite bind_run, get_node_run.
  destruct (heap st !! self) as [n|]; [|done].
  destruct (falsy (notebook_id n)); [done|].
  rewrite bind_run, post_run. fold (query_request n question).
  destruct (service _ _) as [e|resp]; [done|].
  destruct (status resp =? 200); [|done].
  rewrite bind_run. unfold response_json, getitem.
  destruct (json resp) as [data|]; [|done]. cbn.
  by destruct (dict_get data "response").
Qed.

(** [create_notebook] in full. *)
Lemma create_notebook_run self name st :
  create_notebook service self name st =
    match heap st !! self with
    | None => (Raise InvalidReference, st)
    | Some n =>
        let r := create_request n name in
        let st1 := log_request self r st in
        match service (net_log st).*2 r with
        | inl e => (Raise e, st1)
        | inr resp =>
            if status resp =? 200 then
              match json resp with
              | None => (Raise ContentTypeError, st1)
              | Some data =>
                  match dict_get data "name" with
                  | None => (Raise (KeyError "name"), st1)
                  | Some full =>
                      let id := PyStr.last_segment "/" full in
                      (Ok id,
                       set_heap (<[self := MkNode (api_key n) (node_id n) (Some id)]>
                                   (heap st)) st1)
                  end
              end
            else (Raise (Exception ("Failed to create notebook: " +:+ text resp)), st1)
        end
    end.
Proof.
  unfold create_notebook. rewrite bind_run, get_node_run.
  destruct (heap st !! self) as [n|] eqn:Hn; [|done].
  rewrite bind_run, post_run. fold (create_request n name).
  destruct (service _ _) as [e|resp]; [done|]. cbn zeta.
  destruct (status resp =? 200); [|done].
  rewrite bind_run. unfold response_json.
  destruct (json resp) as [data|]; [|done]. cbn.
  rewrite bind_run. unfold getitem.
  destruct (dict_get data "name") as [full|]; [|done]. cbn.
  rewrite bind_run. unfold set_notebook_id. rewrite bind_run, get_node_run.
  cbn. by rewrite Hn.
Qed.

Lemma ask_question_not_created self question st n :
  heap st !! self = Some n → falsy (notebook_id n) = true →
  ask_question service self question st = (Raise not_created, st).
Proof. intros Hn Hf. by rewrite ask_question_run, Hn, Hf. Qed.

Lemma ask_question_created self question st n :
  heap st !! self = Some n → falsy (notebook_id n) = false →
  ∃ o, ask_question service self question st
       = (o, log_request self (query_request n question) st).
Proof. intros Hn Hf. rewrite ask_question_run, Hn, Hf. eauto. Qed.

(** A non-success reply becomes an exception that carries the reply's
    text, and nothing about the handle. *)
Lemma ask_question_remote_failure self question st n resp :
  heap st !! self = Some n → falsy (notebook_id n) = false →
  service (net_log st).*2 (query_request n question) = inr resp →
  status resp ≠ 200 →
  ask_question service self question st
  = (Raise (Exception ("Failed to query notebook: " +:+ text resp)),
     log_request self (query_request n question) st).
Proof.
  intros Hn Hf Hs Hst. rewrite ask_question_run, Hn, Hf. cbn zeta. rewrite Hs.
  by destruct (Z.eqb_spec (status resp) 200).
Qed.


Lemma ask_question_logs_only (pool : list loc) self question :
  self ∈ pool →
  respects
    (logs_only (λ ev, ev.1 ∈ pool ∧ req_body ev.2 = JsonBody [("query", question)]))
    (ask_question service self question).
Proof.
  intros Hin. apply respects_ask_question; [apply _|].
  intros r Hr. by apply post_logs_only.
Qed.

End RoundTrips.

(** ** The query round *)

Section QueryRound.

Variable service : list http_request → http_request → exn + http_response.


Lemma process_query_run choices question st :
  process_query service choices question st =
    match gather choices (query_tasks service (nodes (scheduler st)) question)
                 (started question st) with
    | (Ok responses, st1) =>
        ask_question service (scheduler_node (scheduler st1))
                     (summary_request question responses) st1
    | (Raise e, st1) => (Raise e, st1)
    end.
Proof.
  unfold process_query. rewrite bind_run. cbn. fold (started question st).
  rewrite bind_run, get_scheduler_run, bind_run. cbn.
  fold (query_tasks service (nodes (scheduler st)) question).
  destruct (gather _ _ _) as [[rs|e] st1]; [|done].
  by rewrite bind_run, get_scheduler_run.
Qed.

Lemma query_tasks_same_objects pool question :
  Forall (respects same_objects) (query_tasks service pool question).
Proof.
  apply Forall_fmap, Forall_forall. intros node _.
  apply ask_question_same_objects.
Qed.

Lemma query_tasks_logs_only pool question :
  Forall (respects (logs_only (node_query pool question))) (query_tasks service pool question).
Proof.
  apply Forall_fmap, Forall_forall. intros node Hin.
  by apply ask_question_logs_only.
Qed.

Lemma query_tasks_lookup pool question i t :
  query_tasks service pool question !! i = Some t →
  ∃ node, pool !! i = Some node ∧ t = ask_question service node question.
Proof.
  unfold query_tasks. intros H.
  change (((λ node, ask_question service node question) <$> pool) !! i = Some t) in H.
  apply list_lookup_fmap_Some in H as (node & -> & Hnode). eauto.
Qed.

(** The raising gather, seen from the record. *)
Lemma gather_Raise {A} choices (tasks : list (M A)) st e :
  first_exception (completions choices tasks st).1 = Some e →
  gather choices tasks st = (Raise e, (completions choices tasks st).2).
Proof.
  unfold gather. destruct (completions choices tasks st) as [done st1]. simpl.
  by intros ->.
Qed.

Lemma gather_state {A} choices (tasks : list (M A)) st :
  (gather choices tasks st).2 = (completions choices tasks st).2.
Proof.
  unfold gather. destruct (completions choices tasks st) as [done st1]. simpl.
  by destruct (first_exception done).
Qed.

Lemma started_same_objects question st : same_objects st (started question st).
Proof. by split. Qed.

Lemma started_logs_only P question st : logs_only P st (started question st).
Proof. exists []. split; [by rewrite app_nil_r|done]. Qed.



(** Every entry of the round's record is the outcome of the query of the
    node at that pool position, asked while the objects were as the call
    found them. *)
Lemma round_record_origin choices question st i o :
  (i, o) ∈ (round_record service choices question st).1 →
  ∃ node s1 s2, nodes (scheduler st) !! i = Some node
    ∧ same_objects st s1
    ∧ ask_question service node question s1 = (o, s2).
Proof.
  intros Hin.
  destruct (completions_origin same_objects choices _ _ i o
              (query_tasks_same_objects _ question) Hin)
    as (t & s1 & s2 & Ht & HR & Hrun).
  apply query_tasks_lookup in Ht as (node & Hnode & ->).
  exists node, s1, s2. split; [done|]. split; [|done].
  etransitivity; [apply (started_same_objects question)|exact HR].
Qed.

(** C4. Result ordering.  In a round whose queries all succeed, whatever
    the completion order, the collected list has one slot per pool
    position, and slot [i] holds the answer that the query of the node at
    position [i] returned; this is the list the synthesis prompt is built
    from. *)
Theorem process_query_response_order choices question st responses st1 :
  let pool := nodes (scheduler st) in
  gather choices (query_tasks service pool question) (started question st)
    = (Ok responses, st1) →
  length responses = length pool
  ∧ (∀ i a, (i, Ok a) ∈ (round_record service choices question st).1 →
       responses !! i = Some a)
  ∧ (∀ i node, pool !! i = Some node →
       ∃ a s1 s2, responses !! i = Some a
         ∧ (i, Ok a) ∈ (round_record service choices question st).1
         ∧ same_objects st s1
         ∧ ask_question service node question s1 = (Ok a, s2))
  ∧ process_query service choices question st
    = ask_question service (scheduler_node (scheduler st1))
                   (summary_request question responses) st1.
Proof.
  intros pool Hg.
  destruct (gather_Ok _ _ _ _ _ Hg) as (Hfe & _ & Hlen & Hslot).
  split; [by rewrite Hlen; unfold query_tasks; rewrite length_map|].
  split; [exact Hslot|]. split.
  - intros i node Hnode.
    destruct (completions_complete choices (query_tasks service pool question)
                (started question st) i) as [o Ho].
    { unfold query_tasks. rewrite length_map. by eapply lookup_lt_Some. }
    destruct (proj1 (first_exception_None _) Hfe i o Ho) as [a ->].
    destruct (round_record_origin choices question st i (Ok a) Ho)
      as (node' & s1 & s2 & Hnode' & HR & Hrun).
    assert (node' = node) as -> by (unfold pool in Hnode; congruence).
    exists a, s1, s2. split; [by apply Hslot|]. done.
  - rewrite process_query_run. fold pool. by rewrite Hg.
Qed.

Lemma length_append (s1 s2 : string) :
  String.length (s1 +:+ s2) = (String.length s1 + String.length s2)%nat.
Proof.
  induction s1 as [|a s1 IH]; [done|].
  change (S (String.length (s1 +:+ s2)) = S (String.length s1 + String.length s2)).
  by rewrite IH.
Qed.

(** The text sent for synthesis is never the question itself. *)
Lemma summary_request_longer question responses :
  (String.length question < String.length (summary_request question responses))%nat.
Proof.
  unfold summary_request, summary_header.
  rewrite !length_append. simpl. lia.
Qed.

Lemma summary_request_neq question responses :
  summary_request question responses ≠ question.
Proof.
  intros H. pose proof (summary_request_longer question responses) as Hl.
  rewrite H in Hl. lia.
Qed.

(** C3 (as the code has it).  All-or-nothing round.  When the query of
    the node at position [k] fails and all the others succeed, the round
    fails with the very exception of that query, which is the underlying
    error and nothing more.  Only pool members have sent requests, each
    carrying the question itself, so no synthesis request was sent; an
    aggregator outside the pool has sent nothing. *)
Theorem process_query_node_failure choices question st k e :
  let pool := nodes (scheduler st) in
  let record := (round_record service choices question st).1 in
  (k, Raise e) ∈ record →
  (∀ i o, (i, o) ∈ record → i ≠ k → ∃ a, o = Ok a) →
  ∃ st',
    process_query service choices question st = (Raise e, st')
    ∧ (∃ node s1 s2, pool !! k = Some node
         ∧ same_objects st s1
         ∧ ask_question service node question s1 = (Raise e, s2))
    ∧ logs_only (node_query pool question) st st'
    ∧ (∀ ev responses, ev ∈ drop (length (net_log st)) (net_log st') →
         req_body ev.2 ≠ JsonBody [("query", summary_request question responses)])
    ∧ (scheduler_node (scheduler st) ∉ pool →
       ∀ ev, ev ∈ drop (length (net_log st)) (net_log st') →
         ev.1 ≠ scheduler_node (scheduler st)).
Proof.
  intros pool record Hk Hothers.
  assert (first_exception record = Some e) as Hfe.
  { apply (first_exception_single record k e); [|done|done].
    apply completions_NoDup. }
  exists (round_record service choices question st).2.
  assert (logs_only (node_query pool question) st (round_record service choices question st).2)
    as Hlog.
  { etransitivity; [apply (started_logs_only _ question)|].
    pose proof (respects_gather (logs_only (node_query pool question)) choices
                  (query_tasks service pool question)
                  (query_tasks_logs_only pool question)
                  (started question st)) as Hr.
    specialize (Hr _ _ (surjective_pairing _)).
    by rewrite gather_state in Hr. }
  assert (∀ ev, ev ∈ drop (length (net_log st))
                       (net_log (round_record service choices question st).2) →
                node_query pool question ev) as Hnew.
  { destruct Hlog as (evs & -> & Hall). intros ev.
    rewrite drop_app_length. intros Hin.
    by eapply (proj1 (Forall_forall _ _) Hall). }
  split; [|split; [|split; [done|split]]].
  - rewrite process_query_run.
    by rewrite (gather_Raise choices _ _ e Hfe).
  - destruct (round_record_origin choices question st k (Raise e) Hk)
      as (node & s1 & s2 & ? & ? & ?). by exists node, s1, s2.
  - intros ev responses Hin Hbody. destruct (Hnew ev Hin) as [_ Hq].
    rewrite Hq in Hbody. injection Hbody as Heq.
    by eapply summary_request_neq.
  - intros Hout ev Hin Heq. destruct (Hnew ev Hin) as [Hpool _].
    apply Hout. by rewrite <- Heq.
Qed.

Lemma gather_nil {A} choices st : gather choices (@nil (M A)) st = (Ok [], st).
Proof. reflexivity. Qed.

Lemma round_same_objects choices question st :
  same_objects st (round_record service choices question st).2.
Proof.
  etransitivity; [apply (started_same_objects question)|].
  pose proof (respects_gather same_objects choices
                (query_tasks service (nodes (scheduler st)) question)
                (query_tasks_same_objects _ question)
                (started question st)) as Hr.
  specialize (Hr _ _ (surjective_pairing _)).
  by rewrite gather_state in Hr.
Qed.

Lemma round_logs_only choices question st :
  logs_only (node_query (nodes (scheduler st)) question) st
            (round_record service choices question st).2.
Proof.
  etransitivity; [apply (started_logs_only _ question)|].
  pose proof (respects_gather
                (logs_only (node_query (nodes (scheduler st)) question)) choices
                (query_tasks service (nodes (scheduler st)) question)
                (query_tasks_logs_only _ question)
                (started question st)) as Hr.
  specialize (Hr _ _ (surjective_pairing _)).
  by rewrite gather_state in Hr.
Qed.


End QueryRound.

(** ** What the calls leave alone *)

Section Frame.

Variable service : list http_request → http_request → exn + http_response.
Variable fs : string → option string.

(** C8. A failed call changes nothing of the scheduler.  When
    [distribute_documents] or [process_query] raises, the pool is the same
    list of the same handles, every handle has the fields it had (its
    notebook id among them), and the aggregator is the same handle. *)
Theorem failed_call_keeps_scheduler_state choices document_paths documents_per_node
    question st e st' :
  distribute_documents service fs choices document_paths documents_per_node st
    = (Raise e, st')
  ∨ process_query service choices question st = (Raise e, st') →
  nodes (scheduler st') = nodes (scheduler st)
  ∧ scheduler_node (scheduler st') = scheduler_node (scheduler st)
  ∧ heap st' = heap st
  ∧ (∀ l, notebook_id <$> heap st' !! l = notebook_id <$> heap st !! l).
Proof.
  intros [H|H].
  - apply distribute_documents_same_objects in H as [-> ->]. done.
  - apply process_query_same_objects in H as [-> ->]. done.
Qed.

Lemma create_notebook_Ok self name st id st' :
  create_notebook service self name st = (Ok id, st') →
  ∃ n, heap st !! self = Some n
    ∧ heap st' = <[self := MkNode (api_key n) (node_id n) (Some id)]> (heap st)
    ∧ scheduler st' = scheduler st.
Proof.
  rewrite create_notebook_run. destruct (heap st !! self) as [n|]; [|done].
  cbn zeta. destruct (service _ _) as [?|resp]; [done|].
  destruct (status resp =? 200); [|done].
  destruct (json resp) as [data|]; [|done].
  destruct (dict_get data "name") as [full|]; [|done].
  intros [= <- <-]. by exists n.
Qed.

Lemma create_notebook_Raise self name st e st' :
  create_notebook service self name st = (Raise e, st') →
  same_objects st st'.
Proof.
  rewrite create_notebook_run. destruct (heap st !! self) as [n|];
    [|by intros [= _ <-]].
  cbn zeta. destruct (service _ _) as [?|resp]; [by intros [= _ <-]|].
  destruct (status resp =? 200); [|by intros [= _ <-]].
  destruct (json resp) as [data|]; [|by intros [= _ <-]].
  destruct (dict_get data "name") as [full|]; [done|by intros [= _ <-]].
Qed.

(** C7 (as the code has it).  The notebook id of a handle is written by
    [create_notebook] and by nothing else: uploads, queries, distribution
    and query rounds leave every handle as it was, and so does a
    [create_notebook] that fails.  A [create_notebook] that succeeds
    stores the id it returns in its own handle, whatever id that handle
    held before, and touches no other handle. *)
Theorem notebook_id_written_by_create_only :
  (∀ self name st id st',
     create_notebook service self name st = (Ok id, st') →
     ∃ n, heap st !! self = Some n
       ∧ heap st' !! self = Some (MkNode (api_key n) (node_id n) (Some id))
       ∧ ∀ l, l ≠ self → heap st' !! l = heap st !! l)
  ∧ (∀ self name st e st',
       create_notebook service self name st = (Raise e, st') → heap st' = heap st)
  ∧ (∀ self path st o st',
       upload_document service fs self path st = (o, st') → heap st' = heap st)
  ∧ (∀ self question st o st',
       ask_question service self question st = (o, st') → heap st' = heap st)
  ∧ (∀ choices document_paths documents_per_node st o st',
       distribute_documents service fs choices document_paths documents_per_node st
         = (o, st') → heap st' = heap st)
  ∧ (∀ choices question st o st',
       process_query service choices question st = (o, st') → heap st' = heap st).
Proof.
  split; [|split; [|split; [|split; [|split]]]].
  - intros self name st id st' H.
    apply create_notebook_Ok in H as (n & Hn & -> & _).
    exists n. split; [done|]. split.
    + apply list_lookup_insert_eq. by eapply lookup_lt_Some.
    + intros l Hl. by apply list_lookup_insert_ne.
  - intros self name st e st' H. by apply create_notebook_Raise in H as [-> _].
  - intros self path st o st' H. by apply upload_document_same_objects in H as [-> _].
  - intros self question st o st' H. by apply ask_question_same_objects in H as [-> _].
  - intros choices D per st o st' H.
    by apply distribute_documents_same_objects in H as [-> _].
  - intros choices question st o st' H.
    by apply process_query_same_objects in H as [-> _].
Qed.

End Frame.

(** ** The synthesis prompt *)

Section Strings.

Implicit Types (s t pre mid post : string).

Lemma append_assoc s1 s2 s3 : (s1 +:+ s2) +:+ s3 = s1 +:+ (s2 +:+ s3).
Proof.
  induction s1 as [|a s1 IH]; [done|].
  change (String a ((s1 +:+ s2) +:+ s3) = String a (s1 +:+ (s2 +:+ s3))).
  by rewrite IH.
Qed.

Lemma append_nil_r s : s +:+ EmptyString = s.
Proof.
  induction s as [|a s IH]; [done|].
  change (String a (s +:+ EmptyString) = String a s). by rewrite IH.
Qed.

Lemma strip_prefix_append t s : PyStr.strip_prefix t (t +:+ s) = Some s.
Proof.
  induction t as [|a t IH]; [done|].
  change (PyStr.strip_prefix (String a t) (String a (t +:+ s)) = Some s).
  simpl. by rewrite Ascii.eqb_refl.
Qed.

Lemma occurs_here t s : is_Some (PyStr.strip_prefix t s) → PyStr.occurs t s = true.
Proof.
  intros H. destruct s; simpl; rewrite bool_decide_eq_true_2; done.
Qed.

Lemma occurs_complete t s pre post : s = pre +:+ t +:+ post → PyStr.occurs t s = true.
Proof.
  intros ->. induction pre as [|a pre IH].
  - apply occurs_here. change (EmptyString +:+ t +:+ post) with (t +:+ post).
    rewrite strip_prefix_append. eauto.
  - change (PyStr.occurs t (String a (pre +:+ t +:+ post)) = true). simpl.
    rewrite IH. apply orb_true_r.
Qed.

Lemma occurs_then_complete a b s pre mid post :
  s = pre +:+ a +:+ mid +:+ b +:+ post → PyStr.occurs_then a b s = true.
Proof.
  intros ->. induction pre as [|c pre IH].
  - change (EmptyString +:+ a +:+ mid +:+ b +:+ post)
      with (a +:+ mid +:+ b +:+ post).
    assert (PyStr.occurs b (mid +:+ b +:+ post) = true) as Hb
      by (by eapply occurs_complete).
    destruct (a +:+ mid +:+ b +:+ post) eqn:E; simpl;
      rewrite <- E, strip_prefix_append, Hb; done.
  - change (PyStr.occurs_then a b (String c (pre +:+ a +:+ mid +:+ b +:+ post)) = true).
    simpl. rewrite IH. apply orb_true_r.
Qed.

Lemma join_cons sep x (l : list string) :
  PyStr.join sep (x :: l)
  = x +:+ match l with [] => EmptyString | _ => sep +:+ PyStr.join sep l end.
Proof. destruct l; simpl; [by rewrite append_nil_r|done]. Qed.

(** A part of a joined text is in the text. *)
Lemma join_middle sep (l1 : list string) x l2 :
  ∃ pre post, PyStr.join sep (l1 ++ x :: l2) = pre +:+ x +:+ post.
Proof.
  induction l1 as [|a l1 (pre & post & IH)].
  - exists EmptyString. eexists.
    change ([] ++ x :: l2) with (x :: l2). rewrite join_cons. reflexivity.
  - exists (a +:+ sep +:+ pre), post.
    change ((a :: l1) ++ x :: l2) with (a :: (l1 ++ x :: l2)).
    rewrite join_cons, IH. destruct (l1 ++ x :: l2) eqn:E.
    + by destruct l1.
    + by rewrite !append_assoc.
Qed.

(** Parts of a joined text come in the order of the list. *)
Lemma join_ordered sep (l : list string) i j x y :
  (i < j)%nat → l !! i = Some x → l !! j = Some y →
  ∃ pre mid post, PyStr.join sep l = pre +:+ x +:+ mid +:+ y +:+ post.
Proof.
  intros Hij Hi Hj.
  rewrite <- (take_drop_middle l i x Hi).
  assert (drop (S i) l !! (j - S i)%nat = Some y) as Hd.
  { rewrite lookup_drop. rewrite <- Hj. f_equal. lia. }
  rewrite <- (take_drop_middle _ _ _ Hd).
  generalize (take i l) as l1, (take (j - S i) (drop (S i) l)) as l2,
             (drop (S (j - S i)) (drop (S i) l)) as l3.
  clear. intros l1 l2 l3.
  destruct (join_middle sep l2 y l3) as (pre2 & post2 & H2).
  induction l1 as [|a l1 (pre & mid & post & IH)].
  - exists EmptyString, (sep +:+ pre2), post2.
    change ([] ++ x :: l2 ++ y :: l3) with (x :: (l2 ++ y :: l3)).
    rewrite join_cons, H2. destruct (l2 ++ y :: l3) eqn:E.
    + by destruct l2.
    + by rewrite !append_assoc.
  - exists (a +:+ sep +:+ pre), mid, post.
    change ((a :: l1) ++ x :: l2 ++ y :: l3) with (a :: (l1 ++ x :: l2 ++ y :: l3)).
    rewrite join_cons, IH. destruct (l1 ++ x :: l2 ++ y :: l3) eqn:E.
    + by destruct l1.
    + by rewrite !append_assoc.
Qed.

Lemma map_zip_seq {B C} (f : nat * B → C) (l : list B) k :
  map f (zip (seq k (length l)) l) = imap (λ i x, f ((k + i)%nat, x)) l.
Proof.
  revert k. induction l as [|x l IH]; intros k; [done|]. simpl.
  rewrite Nat.add_0_r. f_equal. rewrite IH. apply imap_ext.
  intros i y _. simpl. do 2 f_equal. lia.
Qed.

Lemma map_enumerate {B C} (f : nat * B → C) (l : list B) :
  map f (PyStr.enumerate l) = imap (λ i x, f (i, x)) l.
Proof. exact (map_zip_seq f l 0). Qed.

End Strings.

Section Synthesis.

Variable service : list http_request → http_request → exn + http_response.

(** On full success the aggregator is asked exactly the prompt built
    from the question and the collected answers. *)
Lemma process_query_synthesis choices question st responses st1 n :
  gather choices (query_tasks service (nodes (scheduler st)) question)
         (started question st) = (Ok responses, st1) →
  heap st !! scheduler_node (scheduler st) = Some n →
  falsy (notebook_id n) = false →
  ∃ o, process_query service choices question st
       = (o, log_request (scheduler_node (scheduler st))
               (query_request n (summary_request question responses)) st1).
Proof.
  intros Hg Hn Hf. rewrite process_query_run, Hg.
  pose proof (respects_gather same_objects choices _
                (query_tasks_same_objects service _ question) _ _ _ Hg)
    as [Hheap Hsched].
  simpl in Hheap, Hsched. rewrite Hsched.
  apply ask_question_created; [by rewrite Hheap|done].
Qed.


(** C5 (as the code has it).  The synthesis prompt.  The text sent to
    the aggregator opens with the question restated verbatim between
    double quotes; then come the blocks, one per answer, in the order of
    the answers, the block of position [i] being the label
    [Node (i+1) Response:], a line break and the answer; then comes the
    instruction to synthesize the responses into one unified answer,
    highlighting agreements and differences.  The question is restated
    before the blocks, not after them. *)
Theorem synthesis_prompt_layout choices question st responses st1 n :
  let blocks := imap block_at responses in
  gather choices (query_tasks service (nodes (scheduler st)) question)
         (started question st) = (Ok responses, st1) →
  heap st !! scheduler_node (scheduler st) = Some n →
  falsy (notebook_id n) = false →
  (∃ o, process_query service choices question st
        = (o, log_request (scheduler_node (scheduler st))
                (query_request n (summary_request question responses)) st1))
  ∧ summary_request question responses
    = summary_header question
      +:+ PyStr.join (PyStr.nl +:+ PyStr.nl) blocks
      +:+ summary_footer
  ∧ (∃ rest, summary_header question
       = PyStr.nl +:+ indent
         +:+ "I received the following responses to the question: "
         +:+ PyStr.dquote +:+ question +:+ PyStr.dquote +:+ rest)
  ∧ length blocks = length responses
  ∧ (∀ i response, responses !! i = Some response →
       blocks !! i = Some ("Node " +:+ PyStr.str_of_nat (i + 1) +:+ " Response:"
                           +:+ PyStr.nl +:+ response))
  ∧ (∀ i j ri rj, (i < j)%nat →
       responses !! i = Some ri → responses !! j = Some rj →
       ∃ pre mid post,
         PyStr.join (PyStr.nl +:+ PyStr.nl) blocks
         = pre +:+ block_at i ri +:+ mid +:+ block_at j rj +:+ post)
  ∧ (∃ pre post, summary_footer = pre +:+ synthesis_instruction +:+ post).
Proof.
  intros blocks Hg Hn Hf.
  split; [by eapply process_query_synthesis|].
  split; [unfold summary_request; by rewrite map_enumerate|].
  split; [unfold summary_header; eauto|].
  split; [apply length_imap|].
  split.
  - intros i r Hi. unfold blocks. by rewrite list_lookup_imap, Hi.
  - split.
    + intros i j ri rj Hij Hi Hj.
      apply (join_ordered _ blocks i j); [done| |];
        unfold blocks; rewrite list_lookup_imap; [by rewrite Hi|by rewrite Hj].
    + exists (PyStr.nl +:+ indent +:+ PyStr.nl +:+ indent +:+ rule +:+ PyStr.nl
              +:+ indent +:+ PyStr.nl +:+ indent).
      exists (PyStr.nl +:+ indent
              +:+ "Provide a unified response that captures the key insights from all nodes."
              +:+ PyStr.nl +:+ indent).
      vm_compute. reflexivity.
Qed.

End Synthesis.

(** C9. Prompt determinism.  Take two rounds on the same question, with
    any two services, schedules and states, in which the same list of
    answers was collected.  Both send the aggregator the same text, byte
    for byte: the prompt depends on the question and on the answers in
    their order, and on nothing else. *)
Theorem synthesis_prompt_deterministic service1 service2 choices1 choices2
    question responses st1 st2 s1 s2 n1 n2 :
  gather choices1 (query_tasks service1 (nodes (scheduler st1)) question)
         (started question st1) = (Ok responses, s1) →
  gather choices2 (query_tasks service2 (nodes (scheduler st2)) question)
         (started question st2) = (Ok responses, s2) →
  heap st1 !! scheduler_node (scheduler st1) = Some n1 →
  heap st2 !! scheduler_node (scheduler st2) = Some n2 →
  falsy (notebook_id n1) = false →
  falsy (notebook_id n2) = false →
  ∃ o1 o2 r1 r2,
    process_query service1 choices1 question st1
      = (o1, log_request (scheduler_node (scheduler st1)) r1 s1)
    ∧ process_query service2 choices2 question st2
      = (o2, log_request (scheduler_node (scheduler st2)) r2 s2)
    ∧ req_body r1 = JsonBody [("query", summary_request question responses)]
    ∧ req_body r2 = req_body r1.
Proof.
  intros Hg1 Hg2 Hn1 Hn2 Hf1 Hf2.
  destruct (process_query_synthesis service1 _ _ _ _ _ _ Hg1 Hn1 Hf1) as [o1 H1].
  destruct (process_query_synthesis service2 _ _ _ _ _ _ Hg2 Hn2 Hf2) as [o2 H2].
  by exists o1, o2, (query_request n1 (summary_request question responses)),
            (query_request n2 (summary_request question responses)).
Qed.

(** * The theorems at work *)

Section Instances.

Import Scenario.

(** The states of the scenarios are states the program reaches. *)
Example ready_is_reached :
  let run := (new_scheduler "KEY";;
              initialize_scheduler provisioning;;
              initialize_nodes provisioning ["A"; "B"]) empty in
  run.1 = Ok [1; 2]%nat
  ∧ heap run.2 = heap ready ∧ scheduler run.2 = scheduler ready.
Proof. vm_compute. repeat split; reflexivity. Qed.

Example no_aggregator_is_reached :
  let run := (new_scheduler "KEY";;
              initialize_nodes provisioning ["A"; "B"]) empty in
  run.1 = Ok [1; 2]%nat
  ∧ heap run.2 = heap no_aggregator ∧ scheduler run.2 = scheduler no_aggregator.
Proof. vm_compute. repeat split; reflexivity. Qed.

Example no_pool_is_reached :
  let run := (new_scheduler "KEY";; initialize_scheduler provisioning) empty in
  run.1 = Ok ()
  ∧ heap run.2 = heap no_pool ∧ scheduler run.2 = scheduler no_pool.
Proof. vm_compute. repeat split; reflexivity. Qed.

(** Two nodes of capacity 2 and the documents [a], [b], [c]: the first
    node gets [a] and [b], the second gets [c]. *)
Lemma distribute_documents_sharding_witness :
  Z.of_nat (length docs_abc) ≤ Z.of_nat (length (nodes (scheduler ready))) * 2
  ∧ upload_plan (nodes (scheduler ready)) docs_abc 2
    = concat (imap (λ i node, map (pair node) (shard docs_abc (Z.to_nat 2) i))
                   (nodes (scheduler ready)))
  ∧ (upload_plan (nodes (scheduler ready)) docs_abc 2).*2 = docs_abc.
Proof.
  assert (Z.of_nat (length docs_abc)
          ≤ Z.of_nat (length (nodes (scheduler ready))) * 2) as Hfit
    by (vm_compute; discriminate).
  destruct (distribute_documents_sharding answers_X files [] docs_abc 2 ready Hfit)
    as (_ & _ & Hplan & _ & Hall & _).
  split; [exact Hfit|]. split; [exact Hplan|exact Hall].
Defined.

Example scenario_A_plan :
  upload_plan [1; 2]%nat docs_abc 2 = [(1, "a"); (1, "b"); (2, "c")]%nat.
Proof. reflexivity. Qed.

Example scenario_A_empty_slice :
  upload_plan [1; 2; 3]%nat docs_abc 2 = [(1, "a"); (1, "b"); (2, "c")]%nat.
Proof. reflexivity. Qed.

(** Five documents do not fit two nodes of capacity 2. *)
Lemma distribute_documents_capacity_exceeded_witness :
  Z.of_nat (length ["a"; "b"; "c"; "d"; "e"])
    > Z.of_nat (length (nodes (scheduler ready))) * 2
  ∧ distribute_documents answers_X files [] ["a"; "b"; "c"; "d"; "e"] (Some 2) ready
    = (Raise (Exception "Too many documents. Maximum is 4"), ready).
Proof.
  assert (Z.of_nat (length ["a"; "b"; "c"; "d"; "e"])
          > Z.of_nat (length (nodes (scheduler ready))) * 2) as Hover
    by (vm_compute; reflexivity).
  split; [exact Hover|].
  exact (proj1 (distribute_documents_capacity_exceeded answers_X files []
                  ["a"; "b"; "c"; "d"; "e"] 2 ready Hover)).
Defined.

(** The second node is rejected, the first one answers. *)
Lemma process_query_node_failure_witness :
  (round_record (rejects "nb2") [] "Q?" ready).1 = [(0, Ok "X"); (1, Raise boom)]%nat
  ∧ ∃ st', process_query (rejects "nb2") [] "Q?" ready = (Raise boom, st')
           ∧ logs_only (node_query [1; 2]%nat "Q?") ready st'.
Proof.
  assert ((round_record (rejects "nb2") [] "Q?" ready).1
          = [(0, Ok "X"); (1, Raise boom)]%nat) as Hrec by (vm_compute; reflexivity).
  split; [exact Hrec|].
  destruct (process_query_node_failure (rejects "nb2") [] "Q?" ready 1%nat boom)
    as (st' & Hrun & _ & Hlog & _).
  - rewrite Hrec. apply list_elem_of_further, list_elem_of_here.
  - rewrite Hrec. intros i o Hin Hne.
    apply elem_of_cons in Hin as [[= -> ->]|Hin]; [by eexists|].
    apply elem_of_cons in Hin as [[= -> ->]|Hin]; [done|].
    by apply elem_of_nil in Hin.
  - exists st'. split; [exact Hrun|exact Hlog].
Defined.

(** C3, the counterexample.  Reject the first node or reject the second
    node: the round fails with the same exception, which therefore tells
    nothing about which node failed. *)
Lemma process_query_error_names_no_node :
  (round_record (rejects "nb1") [] "Q?" ready).1 = [(0, Raise boom); (1, Ok "X")]%nat
  ∧ (round_record (rejects "nb2") [] "Q?" ready).1 = [(0, Ok "X"); (1, Raise boom)]%nat
  ∧ (process_query (rejects "nb1") [] "Q?" ready).1 = Raise boom
  ∧ (process_query (rejects "nb2") [] "Q?" ready).1 = Raise boom
  ∧ PyStr.occurs "1" "Failed to query notebook: boom" = false
  ∧ PyStr.occurs "2" "Failed to query notebook: boom" = false
  ∧ ¬ ∃ failing_node, names_failing_node failing_node.
Proof.
  assert ((round_record (rejects "nb1") [] "Q?" ready).1
          = [(0, Raise boom); (1, Ok "X")]%nat) as Hrec1 by (vm_compute; reflexivity).
  assert ((round_record (rejects "nb2") [] "Q?" ready).1
          = [(0, Ok "X"); (1, Raise boom)]%nat) as Hrec2 by (vm_compute; reflexivity).
  do 6 (split; [vm_compute; reflexivity|]).
  intros [failing_node Hnames].
  assert (failing_node boom = 0%nat) as H0.
  { eapply (Hnames (rejects "nb1") [] "Q?" ready 0%nat boom).
    - rewrite Hrec1. apply list_elem_of_here.
    - rewrite Hrec1. intros i o Hin Hne.
      apply elem_of_cons in Hin as [[= -> ->]|Hin]; [done|].
      apply elem_of_cons in Hin as [[= -> ->]|Hin]; [by eexists|].
      by apply elem_of_nil in Hin.
    - vm_compute. reflexivity. }
  assert (failing_node boom = 1%nat) as H1.
  { eapply (Hnames (rejects "nb2") [] "Q?" ready 1%nat boom).
    - rewrite Hrec2. apply list_elem_of_further, list_elem_of_here.
    - rewrite Hrec2. intros i o Hin Hne.
      apply elem_of_cons in Hin as [[= -> ->]|Hin]; [by eexists|].
      apply elem_of_cons in Hin as [[= -> ->]|Hin]; [done|].
      by apply elem_of_nil in Hin.
    - vm_compute. reflexivity. }
  congruence.
Qed.

(** The second node completes first; the answers are still in pool
    order. *)
Lemma process_query_response_order_witness :
  (round_record echo [1%nat] "Q?" ready).1.*1 = [1; 0]%nat
  ∧ (gather [1%nat] (query_tasks echo (nodes (scheduler ready)) "Q?")
            (started "Q?" ready)).1
    = Ok [query_url "nb1"; query_url "nb2"]
  ∧ length [query_url "nb1"; query_url "nb2"] = length (nodes (scheduler ready))
  ∧ ∀ i a, (i, Ok a) ∈ (round_record echo [1%nat] "Q?" ready).1 →
           [query_url "nb1"; query_url "nb2"] !! i = Some a.
Proof.
  split; [vm_compute; reflexivity|]. split; [vm_compute; reflexivity|].
  destruct (process_query_response_order echo [1%nat] "Q?" ready
              [query_url "nb1"; query_url "nb2"]
              (gather [1%nat] (query_tasks echo (nodes (scheduler ready)) "Q?")
                      (started "Q?" ready)).2)
    as (Hlen & Hslot & _).
  - vm_compute. reflexivity.
  - split; [exact Hlen|exact Hslot].
Defined.

(** Both nodes answer [X]. *)
Lemma synthesis_prompt_layout_witness :
  (gather [] (query_tasks answers_X (nodes (scheduler ready)) "Q?")
          (started "Q?" ready)).1 = Ok ["X"; "X"]
  ∧ ∃ o st1, process_query answers_X [] "Q?" ready
             = (o, log_request 0%nat
                     (query_request aggregator (summary_request "Q?" ["X"; "X"])) st1).
Proof.
  split; [vm_compute; reflexivity|].
  destruct (synthesis_prompt_layout answers_X [] "Q?" ready ["X"; "X"]
              (gather [] (query_tasks answers_X (nodes (scheduler ready)) "Q?")
                      (started "Q?" ready)).2 aggregator)
    as ([o Hrun] & _).
  - vm_compute. reflexivity.
  - reflexivity.
  - reflexivity.
  - exists o. eexists. exact Hrun.
Defined.

(** Scenario B: three answers [X]. *)
Example scenario_B_blocks :
  PyStr.join (PyStr.nl +:+ PyStr.nl) (imap block_at ["X"; "X"; "X"])
  = "Node 1 Response:" +:+ PyStr.nl +:+ "X" +:+ PyStr.nl +:+ PyStr.nl
    +:+ "Node 2 Response:" +:+ PyStr.nl +:+ "X" +:+ PyStr.nl +:+ PyStr.nl
    +:+ "Node 3 Response:" +:+ PyStr.nl +:+ "X".
Proof. vm_compute. reflexivity. Qed.

(** C5, the counterexample.  In the prompt for three answers [X] to the
    question [Q?], the question stands in the opening line and nowhere
    after the label of the first block. *)
Lemma question_not_restated_after_blocks :
  PyStr.occurs "Q?" (summary_header "Q?") = true
  ∧ ¬ question_after_blocks "Q?" (summary_request "Q?" ["X"; "X"; "X"]).
Proof.
  split; [vm_compute; reflexivity|].
  intros (pre & mid & post & H).
  apply occurs_then_complete in H. vm_compute in H. discriminate H.
Qed.


(** C7, the counterexample.  Two calls of [create_notebook] on one
    handle both succeed, and the second replaces the id that the first
    had bound. *)
Lemma create_notebook_rebinds :
  let first := create_notebook creates_a_then_b 0%nat "Scheduler Node" no_aggregator in
  let second := create_notebook creates_a_then_b 0%nat "Scheduler Node" first.2 in
  first.1 = Ok "a"
  ∧ notebook_id <$> heap first.2 !! 0%nat = Some (Some "a")
  ∧ second.1 = Ok "b"
  ∧ notebook_id <$> heap second.2 !! 0%nat = Some (Some "b")
  ∧ notebook_id <$> heap second.2 !! 0%nat ≠ notebook_id <$> heap first.2 !! 0%nat.
Proof. vm_compute. repeat split; done. Qed.

(** A distribution that is rejected and a round that fails. *)
Lemma failed_call_keeps_scheduler_state_witness :
  process_query (rejects "nb2") [] "Q?" ready
  = (Raise boom, (process_query (rejects "nb2") [] "Q?" ready).2)
  ∧ nodes (scheduler (process_query (rejects "nb2") [] "Q?" ready).2)
    = nodes (scheduler ready)
  ∧ heap (process_query (rejects "nb2") [] "Q?" ready).2 = heap ready.
Proof.
  assert (process_query (rejects "nb2") [] "Q?" ready
          = (Raise boom, (process_query (rejects "nb2") [] "Q?" ready).2)) as Hrun
    by (vm_compute; reflexivity).
  split; [exact Hrun|].
  destruct (failed_call_keeps_scheduler_state (rejects "nb2") files [] [] None
              "Q?" ready boom _ (or_intror Hrun)) as (Hpool & _ & Hheap & _).
  split; [exact Hpool|exact Hheap].
Defined.

(** Two rounds that differ in the service, in the schedule and in the
    state, and collect the same answers. *)
Lemma synthesis_prompt_deterministic_witness :
  ∃ o1 o2 r1 r2 s1 s2,
    process_query answers_X [] "Q?" ready = (o1, log_request 0%nat r1 s1)
    ∧ process_query (rejects "nb9") [1%nat] "Q?" (log_print "earlier" ready)
      = (o2, log_request 0%nat r2 s2)
    ∧ req_body r1 = JsonBody [("query", summary_request "Q?" ["X"; "X"])]
    ∧ req_body r2 = req_body r1.
Proof.
  destruct (synthesis_prompt_deterministic answers_X (rejects "nb9") [] [1%nat]
              "Q?" ["X"; "X"] ready (log_print "earlier" ready)
              (gather [] (query_tasks answers_X (nodes (scheduler ready)) "Q?")
                      (started "Q?" ready)).2
              (gather [1%nat] (query_tasks (rejects "nb9") (nodes (scheduler ready)) "Q?")
                      (started "Q?" (log_print "earlier" ready))).2
              aggregator aggregator)
    as (o1 & o2 & r1 & r2 & H1 & H2 & Hb1 & Hb2).
  - vm_compute. reflexivity.
  - vm_compute. reflexivity.
  - reflexivity.
  - reflexivity.
  - reflexivity.
  - reflexivity.
  - exists o1, o2, r1, r2. do 2 eexists.
    split; [exact H1|]. split; [exact H2|]. split; [exact Hb1|exact Hb2].
Defined.

End Instances.

(** * More of the code: the handle *)

(** ** The last segment of a path *)

Section LastSegment.

Variable c : ascii.

Lemma contains_char_append s1 s2 :
  PyStr.contains_char c (s1 +:+ s2)
  = PyStr.contains_char c s1 || PyStr.contains_char c s2.
Proof.
  induction s1 as [|a s1 IH]; [done|].
  change (Ascii.eqb a c || PyStr.contains_char c (s1 +:+ s2)
          = Ascii.eqb a c || PyStr.contains_char c s1 || PyStr.contains_char c s2).
  rewrite IH. by destruct (Ascii.eqb a c).
Qed.

(** The scan keeps, in [cur], the text after the last separator seen. *)
Lemma last_segment_go_spec s :
  ∀ cur before seen,
    cur = seen +:+ s →
    PyStr.contains_char c seen = false →
    (before = EmptyString ∨ ∃ q, before = q +:+ String c EmptyString) →
    ∃ before',
      before +:+ cur = before' +:+ PyStr.last_segment_go c s cur
      ∧ (before' = EmptyString ∨ ∃ q, before' = q +:+ String c EmptyString)
      ∧ PyStr.contains_char c (PyStr.last_segment_go c s cur) = false.
Proof.
  induction s as [|a s IH]; intros cur before seen Hcur Hseen Hbefore.
  - exists before. simpl. split; [done|]. split; [done|].
    by rewrite Hcur, append_nil_r.
  - simpl. destruct (Ascii.eqb_spec a c) as [->|Hne].
    + destruct (IH s (before +:+ seen +:+ String c EmptyString) EmptyString)
        as (before' & Heq & Hends & Hnone); [done|done| |].
      { right. exists (before +:+ seen). by rewrite append_assoc. }
      exists before'. split; [|done].
      rewrite <- Heq, Hcur. by rewrite !append_assoc.
    + destruct (IH cur before (seen +:+ String a EmptyString))
        as (before' & Heq & Hends & Hnone); [|  |done|].
      { rewrite Hcur. by rewrite append_assoc. }
      { rewrite contains_char_append, Hseen. simpl.
        by destruct (Ascii.eqb_spec a c). }
      by exists before'.
Qed.

Lemma last_segment_clean s :
  PyStr.contains_char c (PyStr.last_segment c s) = false.
Proof.
  destruct (last_segment_go_spec s s EmptyString EmptyString)
    as (before & Heq & Hends & Hnone); [done|done|by left|done].
Qed.

(** X1. The last segment of a text ([s.split(c)[-1]], and the base name
    of a path) is the end of the text, it holds no separator, and what
    stands before it is nothing or ends in a separator. *)
Theorem last_segment_spec s :
  ∃ before,
    s = before +:+ PyStr.last_segment c s
    ∧ (before = EmptyString ∨ ∃ q, before = q +:+ String c EmptyString)
    ∧ PyStr.contains_char c (PyStr.last_segment c s) = false.
Proof.
  destruct (last_segment_go_spec s s EmptyString EmptyString)
    as (before & Heq & Hends & Hnone); [done|done|by left|].
  by exists before.
Qed.

Lemma last_segment_go_none s cur :
  PyStr.contains_char c s = false → PyStr.last_segment_go c s cur = cur.
Proof.
  induction s as [|a s IH]; simpl; [done|].
  destruct (Ascii.eqb a c); simpl; [intros [=]|exact IH].
Qed.

(** A text without separator is its own last segment. *)
Lemma last_segment_id s :
  PyStr.contains_char c s = false → PyStr.last_segment c s = s.
Proof. apply last_segment_go_none. Qed.

End LastSegment.

(** ** create_notebook, upload_document and ask_question, case by case *)

Section Handle.

Variable service : list http_request → http_request → exn + http_response.
Variable fs : string → option string.

(** [upload_document] in full. *)
Lemma upload_document_run self document_path st :
  upload_document service fs self document_path st =
    match heap st !! self with
    | None => (Raise InvalidReference, st)
    | Some n =>
        if falsy (notebook_id n) then (Raise not_created, st)
        else
          match fs document_path with
          | None => (Raise (OSError document_path), st)
          | Some content =>
              let r := upload_request n document_path content in
              (match service (net_log st).*2 r with
               | inl e => Raise e
               | inr resp =>
                   if status resp =? 200 then
                     match json resp with
                     | None => Raise ContentTypeError
                     | Some data =>
                         match dict_get data "document_id" with
                         | Some id => Ok id
                         | None => Raise (KeyError "document_id")
                         end
                     end
                   else Raise (Exception ("Failed to upload document: " +:+ text resp))
               end, log_request self r st)
          end
    end.
Proof.
  unfold upload_document. rewrite bind_run, get_node_run.
  destruct (heap st !! self) as [n|]; [|done].
  destruct (falsy (notebook_id n)); [done|].
  rewrite bind_run. unfold read_file.
  destruct (fs document_path) as [content|]; [|done]. cbn.
  rewrite bind_run, post_run. fold (upload_request n document_path content).
  destruct (service _ _) as [e|resp]; [done|].
  destruct (status resp =? 200); [|done].
  rewrite bind_run. unfold response_json, getitem.
  destruct (json resp) as [data|]; [|done]. cbn.
  by destruct (dict_get data "document_id").
Qed.

(** X2. A [create_notebook] that succeeds has sent one request, to the
    notebooks collection, with the display name [name - Node node_id];
    the reply had status 200 and a [name]; the id returned and stored in
    the handle is the last segment of that name and holds no slash; the
    other fields of the handle are as before. *)
Theorem create_notebook_success self name st id st' :
  create_notebook service self name st = (Ok id, st') →
  ∃ n resp data full,
    heap st !! self = Some n
    ∧ service (net_log st).*2 (create_request n name) = inr resp
    ∧ status resp = 200
    ∧ json resp = Some data
    ∧ dict_get data "name" = Some full
    ∧ id = PyStr.last_segment "/" full
    ∧ PyStr.contains_char "/" id = false
    ∧ req_body (create_request n name)
      = JsonBody [("display_name", name +:+ " - Node " +:+ node_id n)]
    ∧ net_log st' = net_log st ++ [(self, create_request n name)]
    ∧ heap st' !! self = Some (MkNode (api_key n) (node_id n) (Some id)).
Proof.
  rewrite create_notebook_run. destruct (heap st !! self) as [n|] eqn:Hn; [|done].
  cbn zeta. destruct (service _ _) as [?|resp] eqn:Hs; [done|].
  destruct (Z.eqb_spec (status resp) 200) as [Hst|?]; [|done].
  destruct (json resp) as [data|] eqn:Hj; [|done].
  destruct (dict_get data "name") as [full|] eqn:Hd; [|done].
  intros [= <- <-]. exists n, resp, data, full.
  repeat (split; [done|]). split.
  - apply last_segment_clean.
  - split; [done|]. split; [done|]. simpl.
    apply list_lookup_insert_eq. by eapply lookup_lt_Some.
Qed.


Lemma upload_document_not_created self document_path st n :
  heap st !! self = Some n → falsy (notebook_id n) = true →
  upload_document service fs self document_path st = (Raise not_created, st).
Proof. intros Hn Hf. by rewrite upload_document_run, Hn, Hf. Qed.

(** X4. A handle without notebook, be its id [None] or the empty text,
    refuses an upload and a question with [Notebook not created yet]; it
    reads no file and sends nothing. *)
Theorem handle_requires_notebook self n argument st :
  heap st !! self = Some n →
  falsy (notebook_id n) = true →
  upload_document service fs self argument st = (Raise not_created, st)
  ∧ ask_question service self argument st = (Raise not_created, st).
Proof.
  intros Hn Hf. split.
  - by apply (upload_document_not_created _ _ _ n).
  - by apply (ask_question_not_created _ _ _ _ n).
Qed.


(** X6. An upload whose file cannot be read raises the error of [open]
    before anything is sent. *)
Theorem upload_document_unreadable self n document_path st :
  heap st !! self = Some n →
  falsy (notebook_id n) = false →
  fs document_path = None →
  upload_document service fs self document_path st
  = (Raise (OSError document_path), st).
Proof.
  intros Hn Hf Hfs. by rewrite upload_document_run, Hn, Hf, Hfs.
Qed.

(** X7. An upload that succeeds has read the file and sent it in one
    request to the documents of the handle's notebook, under the base
    name of the path, which holds no slash; what it returns is the
    [document_id] of a reply with status 200.  The handle is as before. *)
Theorem upload_document_success self document_path st id st' :
  upload_document service fs self document_path st = (Ok id, st') →
  ∃ n notebook content resp data,
    heap st !! self = Some n
    ∧ notebook_id n = Some notebook ∧ notebook ≠ EmptyString
    ∧ fs document_path = Some content
    ∧ st' = log_request self (upload_request n document_path content) st
    ∧ req_url (upload_request n document_path content)
      = base_url +:+ "/notebooks/" +:+ notebook +:+ "/documents"
    ∧ req_body (upload_request n document_path content)
      = FormBody "document" (PyStr.last_segment "/" document_path) content
                 "application/octet-stream"
    ∧ PyStr.contains_char "/" (PyStr.last_segment "/" document_path) = false
    ∧ service (net_log st).*2 (upload_request n document_path content) = inr resp
    ∧ status resp = 200
    ∧ json resp = Some data
    ∧ dict_get data "document_id" = Some id.
Proof.
  rewrite upload_document_run. destruct (heap st !! self) as [n|] eqn:Hn; [|done].
  destruct (notebook_id n) as [notebook|] eqn:Hid; [|done].
  destruct notebook as [|a notebook]; [done|]. simpl falsy. cbn iota.
  destruct (fs document_path) as [content|] eqn:Hfs; [|done]. cbn zeta.
  destruct (service _ _) as [?|resp] eqn:Hs; [done|].
  destruct (Z.eqb_spec (status resp) 200) as [Hst|?]; [|done].
  destruct (json resp) as [data|] eqn:Hj; [|done].
  destruct (dict_get data "document_id") as [id'|] eqn:Hd; [|done].
  intros [= <- <-].
  exists n, (String a notebook), content, resp, data.
  split; [done|]. split; [done|]. split; [done|]. split; [done|].
  split; [done|]. split; [unfold upload_request; by rewrite Hid|].
  split; [done|]. split.
  - apply last_segment_clean.
  - done.
Qed.

End Handle.

(** * More of the code: building the pool *)

Section Pool.

Local Open Scope nat_scope.

Variable service : list http_request → http_request → exn + http_response.

Lemma new_node_run key id st :
  new_node key id st
  = (Ok (length (heap st)), set_heap (heap st ++ [MkNode key id None]) st).
Proof. reflexivity. Qed.

Lemma create_notebook_Ok_state self name st id st' :
  create_notebook service self name st = (Ok id, st') →
  ∃ n, heap st !! self = Some n
    ∧ st' = set_heap (<[self := MkNode (api_key n) (node_id n) (Some id)]> (heap st))
                     (log_request self (create_request n name) st).
Proof.
  rewrite create_notebook_run. destruct (heap st !! self) as [n|]; [|done].
  cbn zeta. destruct (service _ _) as [?|resp]; [done|].
  destruct (status resp =? 200)%Z; [|done].
  destruct (json resp) as [data|]; [|done].
  destruct (dict_get data "name") as [full|]; [|done].
  intros [= <- <-]. by exists n.
Qed.

Lemma create_notebook_Raise_state self name st n e st' :
  heap st !! self = Some n →
  create_notebook service self name st = (Raise e, st') →
  st' = log_request self (create_request n name) st.
Proof.
  intros Hn. rewrite create_notebook_run, Hn. cbn zeta.
  destruct (service _ _) as [?|resp]; [by intros [= _ <-]|].
  destruct (status resp =? 200)%Z; [|by intros [= _ <-]].
  destruct (json resp) as [data|]; [|by intros [= _ <-]].
  destruct (dict_get data "name") as [full|]; [done|by intros [= _ <-]].
Qed.

(** One turn of the loop of [initialize_nodes]. *)
Lemma initialize_nodes_loop_cons i name rest acc st :
  initialize_nodes_loop service ((i, name) :: rest) acc st =
    let node := length (heap st) in
    let fresh := MkNode (sched_api_key (scheduler st)) (PyStr.str_of_nat (i + 1)) None in
    match create_notebook service node name (set_heap (heap st ++ [fresh]) st) with
    | (Ok _, st2) => initialize_nodes_loop service rest (acc ++ [node]) st2
    | (Raise e, st2) => (Raise e, st2)
    end.
Proof.
  simpl. rewrite bind_run, get_scheduler_run, bind_run, new_node_run, bind_run.
  by destruct (create_notebook _ _ _ _) as [[?|?] ?].
Qed.

Lemma fresh_lookup (h : list NotebookLMNode) n : (h ++ [n]) !! length h = Some n.
Proof. by rewrite lookup_app_r, Nat.sub_diag. Qed.

Lemma fresh_insert (h : list NotebookLMNode) n n' :
  <[length h := n']> (h ++ [n]) = h ++ [n'].
Proof. by rewrite insert_app_r_alt, Nat.sub_diag. Qed.

(** The loop, when every creation succeeds. *)
Lemma initialize_nodes_loop_Ok names :
  ∀ k acc st pool st',
    initialize_nodes_loop service (zip (seq k (length names)) names) acc st
      = (Ok pool, st') →
    pool = acc ++ seq (length (heap st)) (length names)
    ∧ scheduler st' = scheduler st
    ∧ stdout st' = stdout st
    ∧ (∃ created, heap st' = heap st ++ created
         ∧ length created = length names
         ∧ ∀ i name, names !! i = Some name →
             ∃ id, created !! i
                   = Some (MkNode (sched_api_key (scheduler st))
                                  (PyStr.str_of_nat (k + i + 1)) (Some id)))
    ∧ net_log st'
      = net_log st
        ++ imap (λ i name,
                   (length (heap st) + i,
                    create_request (MkNode (sched_api_key (scheduler st))
                                           (PyStr.str_of_nat (k + i + 1)) None) name))
                names.
Proof.
  induction names as [|name names IH]; intros k acc st pool st'.
  - simpl. intros [= <- <-]. rewrite !app_nil_r.
    split; [done|]. split; [done|]. split; [done|]. split; [|done].
    exists []. by rewrite app_nil_r.
  - simpl zip. rewrite initialize_nodes_loop_cons. cbn zeta.
    set (fresh := MkNode (sched_api_key (scheduler st)) (PyStr.str_of_nat (k + 1)) None).
    destruct (create_notebook _ _ _ _) as [[id|e] st2] eqn:Hc; [|done].
    apply create_notebook_Ok_state in Hc as (n & Hn & ->).
    simpl in Hn. rewrite fresh_lookup in Hn. injection Hn as <-.
    simpl heap. rewrite fresh_insert. intros Hloop.
    apply IH in Hloop as (-> & Hsched & Hout & (created & Hheap & Hlen & Hcreated) & Hlog).
    simpl in *. rewrite length_app in *. simpl in *.
    split; [|split; [done|split; [done|split]]].
    + rewrite <- app_assoc. simpl. do 3 f_equal. lia.
    + exists (MkNode (sched_api_key (scheduler st)) (PyStr.str_of_nat (k + 1)) (Some id)
              :: created).
      split; [by rewrite Hheap, <- app_assoc|]. split; [simpl; lia|].
      intros [|i] name' Hi; simpl in *.
      * exists id. by rewrite Nat.add_0_r.
      * destruct (Hcreated i name' Hi) as [id' Hid]. exists id'.
        rewrite Hid. do 3 f_equal. lia.
    + rewrite Hlog, <- app_assoc. simpl. rewrite !Nat.add_0_r. do 2 f_equal.
      apply imap_ext. intros i name' _. simpl. f_equal; [lia|].
      do 3 f_equal. lia.
Qed.

(** The loop, whatever happens: the scheduler is not written, and the
    objects that existed are not touched. *)
Lemma initialize_nodes_loop_frame items :
  ∀ acc st o st',
    initialize_nodes_loop service items acc st = (o, st') →
    scheduler st' = scheduler st
    ∧ stdout st' = stdout st
    ∧ ∃ created, heap st' = heap st ++ created.
Proof.
  induction items as [|[i name] items IH]; intros acc st o st'.
  - simpl. intros [= _ <-]. split; [done|]. split; [done|].
    exists []. by rewrite app_nil_r.
  - rewrite initialize_nodes_loop_cons. cbn zeta.
    destruct (create_notebook _ _ _ _) as [[id|e] st2] eqn:Hc.
    + apply create_notebook_Ok_state in Hc as (n & Hn & ->).
      simpl heap. rewrite fresh_insert. intros Hloop.
      apply IH in Hloop as (Hsched & Hout & created & Hheap). simpl in *.
      split; [done|]. split; [done|]. eexists. by rewrite Hheap, <- app_assoc.
    + eapply create_notebook_Raise_state in Hc; [|simpl; apply fresh_lookup].
      subst st2. intros [= _ <-]. simpl. split; [done|]. split; [done|]. by eexists.
Qed.

Lemma initialize_nodes_run node_names st :
  initialize_nodes service node_names st =
    match initialize_nodes_loop service (PyStr.enumerate node_names) [] st with
    | (Ok pool, st1) =>
        (Ok pool,
         set_scheduler (MkScheduler (sched_api_key (scheduler st1)) pool
                                    (scheduler_node (scheduler st1))) st1)
    | (Raise e, st1) => (Raise e, st1)
    end.
Proof.
  unfold initialize_nodes. rewrite bind_run.
  by destruct (initialize_nodes_loop _ _ _ _) as [[?|?] ?].
Qed.

(** X8. [initialize_nodes], when it succeeds.  The pool becomes one new
    handle per name, in the order of the names; the handle for the name
    at position [i] has the scheduler's key, the node id [i+1] in
    decimal and a notebook; the requests were sent one after the other
    in that order, each with its display name; the handles that existed
    and the aggregator are as before. *)
Theorem initialize_nodes_success node_names st pool st' :
  initialize_nodes service node_names st = (Ok pool, st') →
  pool = seq (length (heap st)) (length node_names)
  ∧ nodes (scheduler st') = pool
  ∧ scheduler_node (scheduler st') = scheduler_node (scheduler st)
  ∧ sched_api_key (scheduler st') = sched_api_key (scheduler st)
  ∧ length (heap st') = length (heap st) + length node_names
  ∧ (∀ l, l < length (heap st) → heap st' !! l = heap st !! l)
  ∧ (∀ i name, node_names !! i = Some name →
       ∃ id, heap st' !! (length (heap st) + i)
             = Some (MkNode (sched_api_key (scheduler st))
                            (PyStr.str_of_nat (i + 1)) (Some id)))
  ∧ net_log st'
    = net_log st
      ++ imap (λ i name,
                 (length (heap st) + i,
                  HttpRequest (base_url +:+ "/notebooks")
                    [("Authorization", "Bearer " +:+ sched_api_key (scheduler st));
                     ("Content-Type", "application/json")]
                    (JsonBody [("display_name",
                                name +:+ " - Node " +:+ PyStr.str_of_nat (i + 1))])))
              node_names.
Proof.
  rewrite initialize_nodes_run. unfold PyStr.enumerate.
  destruct (initialize_nodes_loop _ _ _ _) as [[pool'|e] st1] eqn:Hloop; [|done].
  intros [= <- <-].
  apply initialize_nodes_loop_Ok in Hloop
    as (-> & Hsched & _ & (created & Hheap & Hlen & Hcreated) & Hlog).
  simpl. rewrite Hsched, Hheap.
  split; [done|]. split; [done|]. split; [done|]. split; [done|].
  split; [rewrite length_app; lia|]. split; [|split].
  - intros l Hl. by rewrite lookup_app_l.
  - intros i name Hi. destruct (Hcreated i name Hi) as [id Hid]. exists id.
    rewrite lookup_app_r by lia.
    replace (length (heap st) + i - length (heap st)) with i by lia. exact Hid.
  - exact Hlog.
Qed.

(** X9. [initialize_nodes], when a creation fails.  The exception of
    that creation comes out, and the scheduler still has the pool and
    the aggregator it had: the pool is replaced only when every notebook
    was created.  The handles that existed are as before. *)
Theorem initialize_nodes_failure node_names st e st' :
  initialize_nodes service node_names st = (Raise e, st') →
  scheduler st' = scheduler st
  ∧ (∀ l, l < length (heap st) → heap st' !! l = heap st !! l).
Proof.
  rewrite initialize_nodes_run.
  destruct (initialize_nodes_loop _ _ _ _) as [[pool'|e'] st1] eqn:Hloop; [done|].
  intros [= <- <-].
  apply initialize_nodes_loop_frame in Hloop as (Hsched & _ & created & Hheap).
  split; [done|]. intros l Hl. by rewrite Hheap, lookup_app_l.
Qed.

End Pool.

(** * More of the code: the scheduler at its edges *)

Section SchedulerEdges.

Variable service : list http_request → http_request → exn + http_response.
Variable fs : string → option string.

Lemma new_scheduler_run key st :
  new_scheduler key st
  = (Ok (), MkState (heap st ++ [MkNode key "scheduler" None])
                    (MkScheduler key [] (length (heap st)))
                    (net_log st) (stdout st)).
Proof. reflexivity. Qed.

Lemma add_node_run node st :
  add_node node st
  = (Ok (), set_scheduler
              (MkScheduler (sched_api_key (scheduler st))
                           (nodes (scheduler st) ++ [node])
                           (scheduler_node (scheduler st))) st).
Proof. reflexivity. Qed.

Lemma node_docs_nil C i : node_docs [] C i = [].
Proof. unfold node_docs, PyStr.slice. by rewrite drop_nil, take_nil. Qed.

Lemma upload_plan_nil (pool : list loc) C : upload_plan pool [] C = [].
Proof.
  rewrite upload_plan_blocks.
  rewrite (imap_ext _ (λ _ _, []) pool)
    by (intros i node _; simpl; by rewrite node_docs_nil).
  induction pool as [|node pool IH]; [done|]. exact IH.
Qed.

(** X10. A scheduler that was only constructed has an empty pool and an
    aggregator without notebook.  It refuses every question with
    [Notebook not created yet] and every non-empty list of documents
    with a maximum of 0, and sends nothing in either case. *)
Theorem constructed_scheduler_refuses key st :
  let st1 := (new_scheduler key st).2 in
  nodes (scheduler st1) = []
  ∧ heap st1 !! scheduler_node (scheduler st1) = Some (MkNode key "scheduler" None)
  ∧ (∀ l, (l < length (heap st))%nat → heap st1 !! l = heap st !! l)
  ∧ (∀ choices question,
       process_query service choices question st1
       = (Raise not_created, started question st1))
  ∧ (∀ choices document_paths documents_per_node,
       document_paths ≠ [] →
       distribute_documents service fs choices document_paths documents_per_node st1
       = (Raise (Exception "Too many documents. Maximum is 0"), st1)).
Proof.
  intros st1. unfold st1. rewrite new_scheduler_run. cbn [snd]. clear st1.
  set (st1 := MkState _ _ _ _).
  split; [done|]. split; [apply fresh_lookup|]. split; [|split].
  - intros l Hl. simpl. by rewrite lookup_app_l.
  - intros choices question. rewrite process_query_run.
    change (query_tasks service (nodes (scheduler st1)) question)
      with (@nil (M string)).
    rewrite gather_nil.
    apply (ask_question_not_created _ _ _ _ (MkNode key "scheduler" None));
      [apply fresh_lookup|done].
  - intros choices D per HD. rewrite distribute_documents_run. cbn zeta.
    change (nodes (scheduler st1)) with (@nil loc).
    destruct D as [|d D]; [done|]. reflexivity.
Qed.

(** X11. [add_node] puts the handle at the end of the pool and changes
    nothing else, so no document moves: the plan for the longer pool is
    the plan for the old pool followed by the new node's slice, which is
    the slice of the position it took. *)
Theorem add_node_extends_plan node st (document_paths : list string) (C : Z) :
  let st1 := (add_node node st).2 in
  let pool := nodes (scheduler st) in
  add_node node st = (Ok (), st1)
  ∧ nodes (scheduler st1) = pool ++ [node]
  ∧ scheduler_node (scheduler st1) = scheduler_node (scheduler st)
  ∧ heap st1 = heap st
  ∧ net_log st1 = net_log st
  ∧ upload_plan (nodes (scheduler st1)) document_paths C
    = upload_plan pool document_paths C
      ++ map (pair node) (node_docs document_paths C (length pool)).
Proof.
  intros st1 pool. unfold st1. rewrite add_node_run. simpl. fold pool.
  repeat (split; [done|]).
  rewrite !upload_plan_blocks, imap_app, concat_app. simpl.
  by rewrite Nat.add_0_r, app_nil_r.
Qed.

(** X12. The capacity check at its edges.  With an empty pool only the
    empty list of documents is accepted, whatever the capacity.  With a
    negative capacity and a pool that is not empty nothing is accepted,
    not even the empty list.  The empty list with a capacity that is not
    negative is accepted by any pool: nothing is sent and the message
    counts 0 documents. *)
Theorem distribute_documents_edges choices st :
  let pool := nodes (scheduler st) in
  (∀ document_paths documents_per_node,
     pool = [] → document_paths ≠ [] →
     distribute_documents service fs choices document_paths documents_per_node st
     = (Raise (Exception "Too many documents. Maximum is 0"), st))
  ∧ (∀ document_paths C,
       pool ≠ [] → C < 0 →
       distribute_documents service fs choices document_paths (Some C) st
       = (Raise (Exception (capacity_message (Z.of_nat (length pool) * C))), st))
  ∧ (∀ C, 0 ≤ C →
       distribute_documents service fs choices [] (Some C) st
       = (Ok (), log_print (distributed_message [] pool) st)).
Proof.
  intros pool. split; [|split].
  - intros D per Hpool HD. rewrite distribute_documents_run. simpl. fold pool.
    rewrite Hpool. destruct D as [|d D]; [done|]. reflexivity.
  - intros D C Hpool HC. rewrite distribute_documents_with. fold pool.
    rewrite (proj2 (over_capacity_true pool D C)); [done|].
    destruct pool as [|node pool']; [done|]. simpl length. nia.
  - intros C HC. rewrite distribute_documents_with. fold pool.
    rewrite (proj2 (over_capacity_false pool [] C)) by (simpl; nia).
    unfold upload_tasks. rewrite upload_plan_nil. simpl map.
    rewrite bind_run, gather_nil. reflexivity.
Qed.

(** X13. How many documents a node gets.  In a call that is accepted,
    the node at position [i] gets [C] documents while [C] are left after
    the [i*C] given to the nodes before it, then what is left, then
    none: the nodes are filled in pool order and none gets more than
    [C]. *)
Theorem node_docs_length (pool : list loc) (document_paths : list string) (C : Z) i :
  Z.of_nat (length document_paths) ≤ Z.of_nat (length pool) * C →
  Z.of_nat (length (node_docs document_paths C i))
  = Z.max 0 (Z.min C (Z.of_nat (length document_paths) - Z.of_nat i * C)).
Proof.
  intros Hfit. destruct (within_capacity_cases _ _ _ Hfit) as [HC|[_ ->]].
  - rewrite node_docs_shard, shard_chunk by done. unfold chunk.
    rewrite length_take, length_drop.
    pose proof (Z2Nat.id C HC) as Hid. clear Hfit.
    set (c := Z.to_nat C) in *. rewrite <- Hid.
    rewrite <- Nat2Z.inj_mul. generalize (i * c)%nat. intros p. lia.
  - rewrite node_docs_nil. simpl length.
    destruct (Z.le_gt_cases 0 C) as [HC|HC]; [|lia].
    assert (0 ≤ Z.of_nat i * C) by nia. lia.
Qed.

End SchedulerEdges.

(** * More of the code: what a call has sent *)

Section Sent.

Context {A : Type}.

(** When every task of a gather succeeds, and a task that succeeds
    sends the one request expected of it and leaves the store alone, the
    gather has sent the expected requests, each once, in some order. *)
Lemma run_tasks_events (h : list NotebookLMNode)
    (expect : nat → option (loc * http_request)) n :
  ∀ (pending : list (nat * M A)) choices st done st',
    n = length pending →
    heap st = h →
    Forall (λ p, ∀ s a s', heap s = h → p.2 s = (Ok a, s') →
                  heap s' = h
                  ∧ ∃ ev, expect p.1 = Some ev ∧ net_log s' = net_log s ++ [ev])
           pending →
    run_tasks n pending choices st = (done, st') →
    first_exception done = None →
    ∃ evs, net_log st' = net_log st ++ evs
         ∧ Some <$> evs ≡ₚ expect <$> pending.*1.
Proof.
  induction n as [|n IH]; intros pending choices st done st' Hn Hh Hall.
  - intros [= _ <-] _. symmetry in Hn. apply nil_length_inv in Hn as ->.
    exists []. by rewrite app_nil_r.
  - assert (pending ≠ []) as Hne by (intros ->; done).
    destruct (choice_in_range pending (hd 0%nat choices) Hne) as [[i t] Hc].
    rewrite run_tasks_S, Hc. destruct (t st) as [o st1] eqn:Ht.
    destruct (run_tasks n _ _ st1) as [rest st2] eqn:Hr.
    intros [= <- <-]. simpl. destruct o as [a|e]; [|done]. intros Hfe.
    destruct (proj1 (Forall_lookup _ _) Hall _ _ Hc st a st1 Hh Ht)
      as (Hh1 & ev & Hev & Hlog1).
    destruct (IH _ _ _ _ _ ltac:(rewrite length_delete by eauto; lia) Hh1
                (Forall_delete _ _ _ Hall) Hr Hfe) as (evs & Hlog2 & Hperm).
    exists (ev :: evs). split.
    + by rewrite Hlog2, Hlog1, <- app_assoc.
    + rewrite (delete_Permutation pending _ _ Hc). simpl in *.
      rewrite Hev. by f_equiv.
Qed.

Lemma fmap_seq_lookup {B C} (f : B → option C) (l : list B) :
  (λ i, l !! i ≫= f) <$> seq 0 (length l) = f <$> l.
Proof.
  apply list_eq. intros i. rewrite !list_lookup_fmap.
  destruct (decide (i < length l)%nat) as [Hi|Hi].
  - rewrite lookup_seq_lt by done. simpl.
    destruct (lookup_lt_is_Some_2 l i Hi) as [x Hx]. by rewrite Hx.
  - rewrite lookup_seq_ge by lia. by rewrite lookup_ge_None_2 by lia.
Qed.

Lemma gather_events (h : list NotebookLMNode) {B}
    (event : B → option (loc * http_request)) (items : list B)
    (task : B → M A) choices st :
  heap st = h →
  (∀ item s a s', heap s = h → task item s = (Ok a, s') →
      heap s' = h ∧ ∃ ev, event item = Some ev ∧ net_log s' = net_log s ++ [ev]) →
  first_exception (completions choices (map task items) st).1 = None →
  ∃ evs, net_log (completions choices (map task items) st).2 = net_log st ++ evs
       ∧ Some <$> evs ≡ₚ event <$> items.
Proof.
  intros Hh Htask Hfe. unfold completions in *.
  destruct (run_tasks _ _ _ st) as [done st1] eqn:Hr. simpl in *.
  assert (length (map task items) = length (PyStr.enumerate (map task items)))
    as Hlen.
  { unfold PyStr.enumerate. rewrite length_zip_with, length_seq. lia. }
  assert (Forall (λ p : nat * M A, ∀ s a s', heap s = h → p.2 s = (Ok a, s') →
                    heap s' = h
                    ∧ ∃ ev, (items !! p.1 ≫= event) = Some ev
                          ∧ net_log s' = net_log s ++ [ev])
                 (PyStr.enumerate (map task items))) as Hall.
  { apply Forall_forall. intros [i t] Hin.
    apply list_elem_of_lookup in Hin as [j Hj].
    apply enumerate_lookup in Hj as [<- Hj]. simpl in *.
    change ((task <$> items) !! i = Some t) in Hj.
    apply list_lookup_fmap_Some in Hj as (item & -> & Hitem).
    intros s a s' Hs Hrun. rewrite Hitem. simpl.
    by apply (Htask item s a s'). }
  destruct (run_tasks_events h (λ i, items !! i ≫= event) _ _ _ _ _ _
              Hlen Hh Hall Hr Hfe) as (evs & Hlog & Hperm).
  exists evs. split; [done|].
  rewrite Hperm, enumerate_fst, length_map. by rewrite fmap_seq_lookup.
Qed.

End Sent.

(** * More of the code: whole calls *)

#[global] Instance same_stdout_preorder : PreOrder same_stdout.
Proof.
  split; [by intros st|].
  intros st1 st2 st3 H1 H2. unfold same_stdout in *. congruence.
Qed.

#[global] Instance sends_with_headers_preorder : PreOrder sends_with_headers.
Proof.
  split.
  - intros st. split; [eauto|]. exists []. by rewrite app_nil_r.
  - intros st1 st2 st3 [K1 (e1 & L1 & F1)] [K2 (e2 & L2 & F2)]. split.
    + intros l n Hn. destruct (K1 l n Hn) as (n' & Hn' & Hk).
      destruct (K2 l n' Hn') as (n'' & Hn'' & Hk'). exists n''.
      split; [done|congruence].
    + exists (e1 ++ e2). rewrite L2, L1, <- app_assoc. split; [done|].
      apply Forall_app. split; [|done].
      eapply Forall_impl; [exact F1|]. intros ev (n & Hn & Hh).
      destruct (K2 _ n Hn) as (n' & Hn' & Hk). exists n'.
      split; [done|]. by rewrite Hk.
Qed.

Section Calls.

Variable service : list http_request → http_request → exn + http_response.
Variable fs : string → option string.

Lemma ask_question_Ok_inv self question st answer st' :
  ask_question service self question st = (Ok answer, st') →
  ∃ n resp data,
    heap st !! self = Some n
    ∧ falsy (notebook_id n) = false
    ∧ st' = log_request self (query_request n question) st
    ∧ service (net_log st).*2 (query_request n question) = inr resp
    ∧ status resp = 200
    ∧ json resp = Some data
    ∧ dict_get data "response" = Some answer.
Proof.
  rewrite ask_question_run. destruct (heap st !! self) as [n|]; [|done].
  destruct (falsy (notebook_id n)) eqn:Hf; [done|]. cbn zeta.
  destruct (service _ _) as [?|resp] eqn:Hs; [done|].
  destruct (Z.eqb_spec (status resp) 200) as [Hst|?]; [|done].
  destruct (json resp) as [data|] eqn:Hj; [|done].
  destruct (dict_get data "response") as [a|] eqn:Hd; [|done].
  intros [= <- <-]. by exists n, resp, data.
Qed.

Lemma upload_document_Ok_inv self document_path st id st' :
  upload_document service fs self document_path st = (Ok id, st') →
  ∃ n content,
    heap st !! self = Some n
    ∧ fs document_path = Some content
    ∧ st' = log_request self (upload_request n document_path content) st.
Proof.
  rewrite upload_document_run. destruct (heap st !! self) as [n|]; [|done].
  destruct (falsy (notebook_id n)); [done|].
  destruct (fs document_path) as [content|]; [|done]. cbn zeta.
  intros [= _ <-]. by exists n, content.
Qed.

Lemma post_same_stdout self r : respects same_stdout (post service self r).
Proof. intros st o st'. rewrite post_run. by intros [= _ <-]. Qed.

Lemma query_tasks_same_stdout pool question :
  Forall (respects same_stdout) (query_tasks service pool question).
Proof.
  apply Forall_fmap, Forall_forall. intros node _.
  apply respects_ask_question; [apply _|]. intros r _. apply post_same_stdout.
Qed.

Lemma upload_tasks_same_stdout pool document_paths C :
  Forall (respects same_stdout) (upload_tasks service fs pool document_paths C).
Proof.
  apply Forall_fmap, Forall_forall. intros [node doc] _.
  apply respects_upload_document; [apply _|]. intros r. apply post_same_stdout.
Qed.

Lemma upload_tasks_same_objects pool document_paths C :
  Forall (respects same_objects) (upload_tasks service fs pool document_paths C).
Proof.
  apply Forall_fmap, Forall_forall. intros [node doc] _.
  apply upload_document_same_objects.
Qed.

(** The documents of the plan of a call that is accepted are the
    documents of the call. *)
Lemma upload_plan_documents (pool : list loc) (document_paths : list string) C :
  Z.of_nat (length document_paths) ≤ Z.of_nat (length pool) * C →
  (upload_plan pool document_paths C).*2 = document_paths.
Proof.
  intros Hfit. rewrite upload_plan_blocks.
  transitivity (concat (map (node_docs document_paths C) (seq 0 (length pool))));
    [exact (concat_imap_snd (node_docs document_paths C) pool 0)|].
  destruct (within_capacity_cases _ _ _ Hfit) as [HC|[_ ->]].
  - rewrite (map_ext _ (shard document_paths (Z.to_nat C)))
      by (intros; by apply node_docs_shard).
    apply shards_cover. nia.
  - induction (seq 0 (length pool)) as [|i l IH]; [done|].
    simpl. by rewrite IH, node_docs_nil.
Qed.

(** The requests of a round whose queries all succeed. *)
Lemma round_events choices question st :
  first_exception (round_record service choices question st).1 = None →
  ∃ sent,
    net_log (round_record service choices question st).2 = net_log st ++ sent
    ∧ Some <$> sent ≡ₚ query_event (heap st) question <$> nodes (scheduler st).
Proof.
  intros Hfe.
  apply (gather_events (heap st) (query_event (heap st) question)
           (nodes (scheduler st)) (λ node, ask_question service node question)
           choices (started question st)); [done| |exact Hfe].
  intros node s a s' Hs Hrun.
  apply ask_question_Ok_inv in Hrun as (n & resp & data & Hn & _ & -> & _).
  split; [done|]. exists (node, query_request n question).
  split; [|done]. unfold query_event. by rewrite <- Hs, Hn.
Qed.

(** X14. A round that returns an answer.  Every query of the round
    succeeded; the requests sent are the query of every pool position,
    each once and in some order, followed by one synthesis request from
    the aggregator with the prompt built from the collected answers; the
    answer returned is the [response] of the reply to that request,
    whose status was 200.  One line was printed, and no object was
    changed. *)
Theorem process_query_success choices question st answer st' :
  process_query service choices question st = (Ok answer, st') →
  ∃ responses sent n resp data,
    gather choices (query_tasks service (nodes (scheduler st)) question)
           (started question st)
      = (Ok responses, (round_record service choices question st).2)
    ∧ length responses = length (nodes (scheduler st))
    ∧ heap st !! scheduler_node (scheduler st) = Some n
    ∧ net_log st'
      = net_log st ++ sent
        ++ [(scheduler_node (scheduler st),
             query_request n (summary_request question responses))]
    ∧ Some <$> sent ≡ₚ query_event (heap st) question <$> nodes (scheduler st)
    ∧ service (net_log st ++ sent).*2
              (query_request n (summary_request question responses)) = inr resp
    ∧ status resp = 200
    ∧ json resp = Some data
    ∧ dict_get data "response" = Some answer
    ∧ stdout st' = stdout st ++ ["Processing query: " +:+ question]
    ∧ heap st' = heap st
    ∧ scheduler st' = scheduler st.
Proof.
  rewrite process_query_run.
  destruct (gather _ _ _) as [[responses|e] st1] eqn:Hg; [|done].
  intros Hask.
  destruct (gather_Ok _ _ _ _ _ Hg) as (Hfe & Hst1 & Hlen & _).
  pose proof (respects_gather same_objects choices _
                (query_tasks_same_objects service _ question) _ _ _ Hg)
    as [Hheap Hsched].
  pose proof (respects_gather same_stdout choices _
                (query_tasks_same_stdout _ question) _ _ _ Hg) as Hout.
  destruct (round_events choices question st Hfe) as (sent & Hsent & Hperm).
  unfold round_record in *. rewrite <- Hst1 in *. simpl in Hheap, Hsched.
  apply ask_question_Ok_inv in Hask
    as (n & resp & data & Hn & _ & -> & Hs & Hstatus & Hj & Hd).
  rewrite Hsched, Hheap in Hn. rewrite Hsent in Hs. rewrite Hsched.
  exists responses, sent, n, resp, data.
  split; [done|]. split; [by rewrite Hlen; unfold query_tasks; rewrite length_map|].
  split; [done|]. split; [simpl; by rewrite Hsent, <- app_assoc|].
  split; [done|]. split; [done|]. split; [done|]. split; [done|]. split; [done|].
  split; [simpl; by rewrite Hout|]. done.
Qed.

Lemma first_exception_Some_split {B} (done : list (nat * outcome B)) e :
  first_exception done = Some e →
  ∃ before k after,
    done = before ++ (k, Raise e) :: after
    ∧ Forall (λ p, ∃ a, p.2 = Ok a) before.
Proof.
  induction done as [|[j [a|e']] done IH]; simpl; [done| |].
  - intros H. destruct (IH H) as (before & k & after & -> & Hall).
    exists ((j, Ok a) :: before), k, after. split; [done|].
    constructor; [by exists a|done].
  - intros [= ->]. by exists [], j, done.
Qed.

(** X15. A round in which queries fail, however many.  The round raises
    the exception of the query that failed first in completion order,
    which is the exception of the query of some pool position.  One line
    was printed, no object was changed, and every request sent is a
    query of a pool member carrying the question itself: no synthesis
    request was sent. *)
Theorem process_query_first_failure choices question st e :
  first_exception (round_record service choices question st).1 = Some e →
  ∃ st',
    process_query service choices question st = (Raise e, st')
    ∧ (∃ before k after,
         (round_record service choices question st).1
           = before ++ (k, Raise e) :: after
         ∧ Forall (λ p, ∃ a, p.2 = Ok a) before
         ∧ ∃ node s1 s2, nodes (scheduler st) !! k = Some node
             ∧ ask_question service node question s1 = (Raise e, s2))
    ∧ logs_only (node_query (nodes (scheduler st)) question) st st'
    ∧ stdout st' = stdout st ++ ["Processing query: " +:+ question]
    ∧ heap st' = heap st
    ∧ scheduler st' = scheduler st.
Proof.
  intros Hfe. exists (round_record service choices question st).2.
  split; [|split; [|split; [|split]]].
  - rewrite process_query_run. unfold round_record in *.
    by rewrite (gather_Raise choices _ _ e Hfe).
  - destruct (first_exception_Some_split _ _ Hfe) as (before & k & after & Hrec & Hall).
    exists before, k, after. split; [done|]. split; [done|].
    destruct (round_record_origin service choices question st k (Raise e))
      as (node & s1 & s2 & Hnode & _ & Hrun).
    { rewrite Hrec. apply elem_of_app. right. left. }
    by exists node, s1, s2.
  - apply round_logs_only.
  - pose proof (respects_gather same_stdout choices _
                  (query_tasks_same_stdout (nodes (scheduler st)) question)
                  (started question st) _ _ (surjective_pairing _)) as Hout.
    rewrite gather_state in Hout. unfold round_record. by rewrite Hout.
  - by destruct (round_same_objects service choices question st).
Qed.

(** X16. A synthesis that is refused.  When every node has answered and
    the reply to the synthesis request has a status other than 200, the
    round raises [Failed to query notebook:] with the text of that reply:
    the message of a refused node query, with nothing to tell the two
    apart. *)
Theorem process_query_synthesis_refused choices question st responses st1 n resp :
  gather choices (query_tasks service (nodes (scheduler st)) question)
         (started question st) = (Ok responses, st1) →
  heap st !! scheduler_node (scheduler st) = Some n →
  falsy (notebook_id n) = false →
  service (net_log st1).*2 (query_request n (summary_request question responses))
    = inr resp →
  status resp ≠ 200 →
  process_query service choices question st
  = (Raise (Exception ("Failed to query notebook: " +:+ text resp)),
     log_request (scheduler_node (scheduler st))
                 (query_request n (summary_request question responses)) st1).
Proof.
  intros Hg Hn Hf Hs Hstatus. rewrite process_query_run, Hg.
  pose proof (respects_gather same_objects choices _
                (query_tasks_same_objects service _ question) _ _ _ Hg)
    as [Hheap Hsched].
  simpl in Hheap, Hsched. rewrite Hsched.
  apply ask_question_remote_failure; [by rewrite Hheap|done|done|done].
Qed.

(** X17. A distribution that succeeds.  The documents fitted, every
    upload succeeded, and the requests sent are the upload of every
    planned (node, document) pair, each once and in some order: one
    request per document.  The line counting the documents and the nodes
    was printed after them, and no object was changed. *)
Theorem distribute_documents_success choices document_paths documents_per_node st st' :
  distribute_documents service fs choices document_paths documents_per_node st
    = (Ok (), st') →
  let per_node := default default_documents_per_node documents_per_node in
  let pool := nodes (scheduler st) in
  Z.of_nat (length document_paths) ≤ Z.of_nat (length pool) * per_node
  ∧ (∃ sent,
       net_log st' = net_log st ++ sent
       ∧ Some <$> sent
         ≡ₚ upload_event (heap st) fs <$> upload_plan pool document_paths per_node
       ∧ length sent = length document_paths)
  ∧ stdout st' = stdout st ++ [distributed_message document_paths pool]
  ∧ heap st' = heap st
  ∧ scheduler st' = scheduler st.
Proof.
  intros Hrun per_node pool. rewrite distribute_documents_run in Hrun.
  fold per_node pool in Hrun.
  destruct (over_capacity pool document_paths per_node) eqn:Hcap; [done|].
  apply over_capacity_false in Hcap. split; [done|].
  rewrite bind_run in Hrun.
  destruct (gather _ _ _) as [[ids|e] st1] eqn:Hg; [|done].
  injection Hrun as <-.
  destruct (gather_Ok _ _ _ _ _ Hg) as (Hfe & Hst1 & _ & _).
  pose proof (respects_gather same_objects choices _
                (upload_tasks_same_objects pool document_paths per_node) _ _ _ Hg)
    as [Hheap Hsched].
  pose proof (respects_gather same_stdout choices _
                (upload_tasks_same_stdout pool document_paths per_node) _ _ _ Hg)
    as Hout.
  destruct (gather_events (heap st) (upload_event (heap st) fs)
              (upload_plan pool document_paths per_node)
              (λ '(node, doc_path), upload_document service fs node doc_path)
              choices st eq_refl) as (sent & Hsent & Hperm).
  { intros [node doc] s a s' Hs Hup.
    apply upload_document_Ok_inv in Hup as (n & content & Hn & Hc & ->).
    split; [done|]. exists (node, upload_request n doc content).
    split; [|done]. unfold upload_event. simpl. by rewrite <- Hs, Hn, Hc. }
  { exact Hfe. }
  fold (upload_tasks service fs pool document_paths per_node) in Hsent.
  rewrite <- Hst1 in Hsent.
  split; [|split; [simpl; by rewrite Hout|done]].
  exists sent. split; [done|]. split; [done|].
  apply Permutation_length in Hperm. rewrite !length_fmap in Hperm.
  rewrite Hperm.
  rewrite <- (upload_plan_documents pool document_paths per_node Hcap) at 2.
  by rewrite length_fmap.
Qed.

End Calls.

(** * More of the code: the headers of every request *)

Section Headers.

Variable service : list http_request → http_request → exn + http_response.
Variable fs : string → option string.

Lemma sends_with_headers_quiet st st' :
  heap st' = heap st → net_log st' = net_log st → sends_with_headers st st'.
Proof.
  intros Hh Hl. split.
  - intros l n Hn. exists n. by rewrite Hh.
  - exists []. by rewrite Hl, app_nil_r.
Qed.

Lemma sends_with_headers_request self r n st :
  heap st !! self = Some n → req_headers r = headers n →
  sends_with_headers st (log_request self r st).
Proof.
  intros Hn Hr. split; [eauto|].
  exists [(self, r)]. split; [done|]. constructor; [|done]. by exists n.
Qed.

Lemma ask_question_headers self question :
  respects sends_with_headers (ask_question service self question).
Proof.
  intros st o st'. rewrite ask_question_run.
  destruct (heap st !! self) as [n|] eqn:Hn; [|intros [= _ <-]; reflexivity].
  destruct (falsy _); [intros [= _ <-]; reflexivity|]. cbn zeta.
  intros [= _ <-]. by apply (sends_with_headers_request _ _ n).
Qed.

Lemma upload_document_headers self document_path :
  respects sends_with_headers (upload_document service fs self document_path).
Proof.
  intros st o st'. rewrite upload_document_run.
  destruct (heap st !! self) as [n|] eqn:Hn; [|intros [= _ <-]; reflexivity].
  destruct (falsy _); [intros [= _ <-]; reflexivity|].
  destruct (fs document_path); [|intros [= _ <-]; reflexivity]. cbn zeta.
  intros [= _ <-]. by apply (sends_with_headers_request _ _ n).
Qed.

Lemma create_notebook_headers self name :
  respects sends_with_headers (create_notebook service self name).
Proof.
  intros st o st' Hrun. destruct o as [id|e].
  - apply create_notebook_Ok_state in Hrun as (n & Hn & ->).
    pose proof (lookup_lt_Some _ _ _ Hn) as Hlt. split.
    + intros l n0 Hl. simpl. destruct (decide (l = self)) as [->|Hne].
      * rewrite list_lookup_insert_eq by done. eexists. split; [done|].
        by pose proof (eq_trans (eq_sym Hl) Hn) as [= ->].
      * rewrite list_lookup_insert_ne by done. eauto.
    + exists [(self, create_request n name)]. split; [done|].
      constructor; [|done]. simpl. rewrite list_lookup_insert_eq by done.
      by eexists.
  - destruct (heap st !! self) as [n|] eqn:Hn.
    + apply (create_notebook_Raise_state _ _ _ _ n) in Hrun; [|done]. subst st'.
      by apply (sends_with_headers_request _ _ n).
    + rewrite create_notebook_run, Hn in Hrun. injection Hrun as _ <-.
      reflexivity.
Qed.

Lemma new_node_headers key id : respects sends_with_headers (new_node key id).
Proof.
  intros st o st'. rewrite new_node_run. intros [= _ <-]. split.
  - intros l n Hn. exists n. split; [|done]. simpl. by apply lookup_app_l_Some.
  - exists []. simpl. by rewrite app_nil_r.
Qed.

Lemma initialize_nodes_loop_headers items :
  ∀ acc, respects sends_with_headers (initialize_nodes_loop service items acc).
Proof.
  induction items as [|[i name] items IH]; intros acc; simpl.
  - apply respects_ret. apply _.
  - apply respects_bind; [apply _|by apply get_scheduler_respects; apply _|].
    intros self.
    apply respects_bind; [apply _|apply new_node_headers|]. intros node.
    apply respects_bind; [apply _|apply create_notebook_headers|]. intros _.
    apply IH.
Qed.

(** X18. Every request carries the headers of the handle that sends it:
    [Authorization: Bearer] with the key of that handle, and
    [Content-Type: application/json], the multipart upload of a document
    included.  This holds for every request sent by any call of any
    method of the handle and of the scheduler, and no call changes the
    key of a handle. *)
Theorem every_request_carries_the_headers :
  (∀ self name, respects sends_with_headers (create_notebook service self name))
  ∧ (∀ self document_path,
       respects sends_with_headers (upload_document service fs self document_path))
  ∧ (∀ self question,
       respects sends_with_headers (ask_question service self question))
  ∧ respects sends_with_headers (initialize_scheduler service)
  ∧ (∀ node_names, respects sends_with_headers (initialize_nodes service node_names))
  ∧ (∀ choices document_paths documents_per_node,
       respects sends_with_headers
         (distribute_documents service fs choices document_paths documents_per_node))
  ∧ (∀ choices question,
       respects sends_with_headers (process_query service choices question)).
Proof.
  split; [apply create_notebook_headers|].
  split; [apply upload_document_headers|].
  split; [apply ask_question_headers|].
  split; [|split; [|split]].
  - unfold initialize_scheduler.
    apply respects_bind; [apply _|by apply get_scheduler_respects; apply _|].
    intros self.
    apply respects_bind; [apply _|apply create_notebook_headers|]. intros _.
    apply respects_ret. apply _.
  - intros node_names. unfold initialize_nodes.
    apply respects_bind; [apply _|apply initialize_nodes_loop_headers|].
    intros pool.
    apply respects_bind; [apply _| |intros _; apply respects_ret; apply _].
    apply respects_modify. intros st. by apply sends_with_headers_quiet.
  - intros choices D per. unfold distribute_documents.
    apply respects_bind; [apply _|by apply get_scheduler_respects; apply _|].
    intros self. destruct (over_capacity _ _ _); [by apply respects_raise; apply _|].
    apply respects_bind; [apply _| |].
    + apply respects_gather; [apply _|].
      apply Forall_fmap, Forall_forall. intros [node doc] _.
      apply upload_document_headers.
    + intros _. apply respects_modify. intros st.
      by apply sends_with_headers_quiet.
  - intros choices question. unfold process_query.
    apply respects_bind; [apply _| |].
    { apply respects_modify. intros st. by apply sends_with_headers_quiet. }
    intros _.
    apply respects_bind; [apply _|by apply get_scheduler_respects; apply _|].
    intros self.
    apply respects_bind; [apply _| |].
    + apply respects_gather; [apply _|].
      apply Forall_fmap, Forall_forall. intros node _.
      apply ask_question_headers.
    + intros responses.
      apply respects_bind; [apply _|by apply get_scheduler_respects; apply _|].
      intros self'. apply ask_question_headers.
Qed.

End Headers.

(** * More of the code: the aggregator, and a distribution that fails *)

Section Aggregator.

Variable service : list http_request → http_request → exn + http_response.
Variable fs : string → option string.

Lemma initialize_scheduler_run st :
  initialize_scheduler service st =
    match create_notebook service (scheduler_node (scheduler st)) "Scheduler Node" st with
    | (Ok _, st1) => (Ok (), st1)
    | (Raise e, st1) => (Raise e, st1)
    end.
Proof.
  unfold initialize_scheduler. rewrite bind_run, get_scheduler_run, bind_run.
  by destruct (create_notebook _ _ _ _) as [[?|?] ?].
Qed.

(** X19. [initialize_scheduler] sends one request, the creation of a
    notebook with the display name [Scheduler Node - Node] and the node
    id of the aggregator.  When it succeeds the aggregator holds the id
    returned; when it fails the aggregator is as before.  Either way the
    pool and every other handle are as before. *)
Theorem initialize_scheduler_spec st n :
  let aggregator := scheduler_node (scheduler st) in
  let run := initialize_scheduler service st in
  heap st !! aggregator = Some n →
  scheduler run.2 = scheduler st
  ∧ (∀ l, l ≠ aggregator → heap run.2 !! l = heap st !! l)
  ∧ net_log run.2
    = net_log st
      ++ [(aggregator,
           HttpRequest (base_url +:+ "/notebooks") (auth_headers (api_key n))
             (JsonBody [("display_name", "Scheduler Node - Node " +:+ node_id n)]))]
  ∧ (run.1 = Ok () →
     ∃ id, heap run.2 !! aggregator
           = Some (MkNode (api_key n) (node_id n) (Some id)))
  ∧ (∀ e, run.1 = Raise e → heap run.2 = heap st).
Proof.
  intros aggregator run Hn. unfold run. rewrite initialize_scheduler_run.
  fold aggregator.
  destruct (create_notebook _ _ _ _) as [[id|e] st1] eqn:Hc.
  - apply create_notebook_Ok_state in Hc as (n' & Hn' & ->).
    pose proof (eq_trans (eq_sym Hn') Hn) as [= ->].
    pose proof (lookup_lt_Some _ _ _ Hn) as Hlt. simpl.
    split; [done|]. split; [|split; [done|split; [|done]]].
    + intros l Hl. by rewrite list_lookup_insert_ne.
    + intros _. exists id. by apply list_lookup_insert_eq.
  - apply (create_notebook_Raise_state _ _ _ _ n) in Hc; [|done]. subst st1.
    simpl. split; [done|]. split; [done|]. split; [done|]. split; [done|].
    by intros e' _.
Qed.

(** A gather has sent at least one request per task that succeeded,
    when a task that succeeds sends one and no task removes any. *)
Lemma run_tasks_sent_at_least {A} n :
  ∀ (pending : list (nat * M A)) choices st done st',
    Forall (λ p, ∀ s o s', p.2 s = (o, s') →
                  (length (net_log s) + (if succeeded o then 1 else 0)
                   ≤ length (net_log s'))%nat) pending →
    run_tasks n pending choices st = (done, st') →
    (length (net_log st) + length (filter (λ p, succeeded p.2 = true) done)
     ≤ length (net_log st'))%nat.
Proof.
  induction n as [|n IH]; intros pending choices st done st' Hall.
  - intros [= <- <-]. simpl. lia.
  - rewrite run_tasks_S. destruct (pending !! _) as [[i t]|] eqn:Hc.
    + destruct (t st) as [o st1] eqn:Ht.
      destruct (run_tasks n _ _ st1) as [rest st2] eqn:Hr.
      intros [= <- <-].
      pose proof (proj1 (Forall_lookup _ _) Hall _ _ Hc st o st1 Ht) as H1.
      pose proof (IH _ _ _ _ _ (Forall_delete _ _ _ Hall) Hr) as H2.
      simpl in H1. rewrite filter_cons.
      destruct o as [a|e]; cbn [succeeded snd] in *;
        [rewrite decide_True by done|rewrite decide_False by done];
        simpl length; lia.
    + intros [= <- <-]. simpl. lia.
Qed.

Lemma upload_document_sends self document_path st o st' :
  upload_document service fs self document_path st = (o, st') →
  (length (net_log st) + (if succeeded o then 1 else 0) ≤ length (net_log st'))%nat.
Proof.
  rewrite upload_document_run.
  destruct (heap st !! self) as [n|]; [|intros [= <- <-]; simpl; lia].
  destruct (falsy _); [intros [= <- <-]; simpl; lia|].
  destruct (fs document_path); [|intros [= <- <-]; simpl; lia]. cbn zeta.
  intros [= <- <-]. simpl. rewrite length_app. simpl.
  destruct (succeeded _); lia.
Qed.

(** X20. A distribution in which uploads fail.  When the documents fit
    and some upload fails, the call raises the exception of the upload
    that failed first in completion order.  It prints nothing and
    changes no object, and nothing is taken back: every upload ran, and
    each one that went through has left its request in the log. *)
Theorem distribute_documents_upload_failure choices document_paths documents_per_node
    st e :
  let per_node := default default_documents_per_node documents_per_node in
  let pool := nodes (scheduler st) in
  let uploads := completions choices
                   (upload_tasks service fs pool document_paths per_node) st in
  Z.of_nat (length document_paths) ≤ Z.of_nat (length pool) * per_node →
  first_exception uploads.1 = Some e →
  distribute_documents service fs choices document_paths documents_per_node st
    = (Raise e, uploads.2)
  ∧ stdout uploads.2 = stdout st
  ∧ heap uploads.2 = heap st
  ∧ scheduler uploads.2 = scheduler st
  ∧ ∃ sent, net_log uploads.2 = net_log st ++ sent
      ∧ (length (filter (λ p, succeeded p.2 = true) uploads.1) ≤ length sent)%nat.
Proof.
  intros per_node pool uploads Hfit Hfe.
  pose proof (gather_Raise choices _ st e Hfe) as Hg. fold uploads in Hg.
  pose proof (respects_gather same_objects choices _
                (upload_tasks_same_objects service fs pool document_paths per_node)
                _ _ _ Hg) as [Hheap Hsched].
  pose proof (respects_gather same_stdout choices _
                (upload_tasks_same_stdout service fs pool document_paths per_node)
                _ _ _ Hg) as Hout.
  pose proof (respects_gather (logs_only (λ _, True)) choices
                (upload_tasks service fs pool document_paths per_node)) as Hlog.
  split; [|split; [done|split; [done|split; [done|]]]].
  - rewrite distribute_documents_run. fold per_node pool.
    rewrite (proj2 (over_capacity_false pool document_paths per_node) Hfit).
    by rewrite bind_run, Hg.
  - destruct (Hlog ltac:(apply Forall_fmap, Forall_forall; intros [node doc] _;
                         apply respects_upload_document; [apply _|];
                         intros r; by apply post_logs_only)
                   _ _ _ Hg) as (sent & Hsent & _).
    exists sent. split; [done|].
    assert (length (net_log st)
            + length (filter (λ p, succeeded p.2 = true) uploads.1)
            ≤ length (net_log uploads.2))%nat as Hcount.
    { unfold uploads, completions.
      destruct (run_tasks _ _ _ st) as [done st1] eqn:Hr. simpl.
      eapply run_tasks_sent_at_least; [|exact Hr].
      apply Forall_forall. intros [i t] Hin s o s' Hrun. simpl in *.
      apply elem_of_zip_r in Hin.
      apply list_elem_of_fmap in Hin as ([node doc] & -> & _).
      by eapply upload_document_sends. }
    rewrite Hsent, length_app in Hcount. lia.
Qed.

End Aggregator.

(** * More of the code at work *)

Section MoreInstances.

Import Scenario.

Example last_segment_examples :
  PyStr.last_segment "/" "projects/p/notebooks/nb1" = "nb1"
  ∧ PyStr.last_segment "/" "report.pdf" = "report.pdf"
  ∧ PyStr.last_segment "/" "projects/p/notebooks/" = EmptyString.
Proof. repeat split. Qed.

Lemma create_notebook_success_witness :
  (create_notebook provisioning 0%nat "Scheduler Node" no_aggregator).1 = Ok "agg"
  ∧ ∃ n, heap no_aggregator !! 0%nat = Some n
       ∧ heap (create_notebook provisioning 0%nat "Scheduler Node" no_aggregator).2
           !! 0%nat
         = Some (MkNode (api_key n) (node_id n) (Some "agg")).
Proof.
  split; [vm_compute; reflexivity|].
  destruct (create_notebook_success provisioning 0%nat "Scheduler Node" no_aggregator
              "agg" (create_notebook provisioning 0%nat "Scheduler Node" no_aggregator).2)
    as (n & resp & data & full & Hn & _ & _ & _ & _ & _ & _ & _ & _ & Hself).
  - vm_compute. reflexivity.
  - exists n. split; [exact Hn|exact Hself].
Defined.


Lemma handle_requires_notebook_witness :
  upload_document answers_X files 0%nat "a" no_aggregator
  = (Raise not_created, no_aggregator)
  ∧ ask_question answers_X 0%nat "a" no_aggregator
    = (Raise not_created, no_aggregator).
Proof.
  apply (handle_requires_notebook answers_X files 0%nat fresh_aggregator "a"
           no_aggregator); reflexivity.
Defined.


Lemma upload_document_unreadable_witness :
  upload_document answers_X no_files 1%nat "a" ready = (Raise (OSError "a"), ready).
Proof.
  apply (upload_document_unreadable answers_X no_files 1%nat node1 "a" ready);
    reflexivity.
Defined.

Lemma upload_document_success_witness :
  (upload_document answers_X files 1%nat "reports/a.pdf" ready).1 = Ok "doc"
  ∧ ∃ n content,
      (upload_document answers_X files 1%nat "reports/a.pdf" ready).2
      = log_request 1%nat (upload_request n "reports/a.pdf" content) ready.
Proof.
  split; [vm_compute; reflexivity|].
  destruct (upload_document_success answers_X files 1%nat "reports/a.pdf" ready "doc"
              (upload_document answers_X files 1%nat "reports/a.pdf" ready).2)
    as (n & notebook & content & resp & data & _ & _ & _ & _ & Hst & _).
  - vm_compute. reflexivity.
  - exists n, content. exact Hst.
Defined.

Lemma initialize_nodes_success_witness :
  (initialize_nodes provisioning ["A"; "B"] no_pool).1 = Ok [1; 2]%nat
  ∧ nodes (scheduler (initialize_nodes provisioning ["A"; "B"] no_pool).2)
    = [1; 2]%nat.
Proof.
  split; [vm_compute; reflexivity|].
  destruct (initialize_nodes_success provisioning ["A"; "B"] no_pool [1; 2]%nat
              (initialize_nodes provisioning ["A"; "B"] no_pool).2)
    as (_ & Hpool & _).
  - vm_compute. reflexivity.
  - exact Hpool.
Defined.

Lemma initialize_nodes_failure_witness :
  (initialize_nodes refuses_all ["C"; "D"] ready).1
  = Raise (Exception "Failed to create notebook: unavailable")
  ∧ scheduler (initialize_nodes refuses_all ["C"; "D"] ready).2 = scheduler ready.
Proof.
  split; [vm_compute; reflexivity|].
  destruct (initialize_nodes_failure refuses_all ["C"; "D"] ready
              (Exception "Failed to create notebook: unavailable")
              (initialize_nodes refuses_all ["C"; "D"] ready).2)
    as (Hsched & _).
  - vm_compute. reflexivity.
  - exact Hsched.
Defined.

Lemma node_docs_length_witness :
  Z.of_nat (length docs_abc) ≤ Z.of_nat (length [1; 2]%nat) * 2
  ∧ Z.of_nat (length (node_docs docs_abc 2 1)) = 1.
Proof.
  assert (Z.of_nat (length docs_abc) ≤ Z.of_nat (length [1; 2]%nat) * 2) as Hfit
    by (vm_compute; discriminate).
  split; [exact Hfit|].
  exact (node_docs_length [1; 2]%nat docs_abc 2 1 Hfit).
Defined.

Lemma process_query_success_witness :
  (process_query answers_X [] "Q?" ready).1 = Ok "X"
  ∧ ∃ responses : list string, length responses = length (nodes (scheduler ready))
      ∧ stdout (process_query answers_X [] "Q?" ready).2
        = stdout ready ++ ["Processing query: Q?"].
Proof.
  split; [vm_compute; reflexivity|].
  destruct (process_query_success answers_X [] "Q?" ready "X"
              (process_query answers_X [] "Q?" ready).2)
    as (responses & sent & n & resp & data & _ & Hlen & _ & _ & _ & _ & _ & _ & _
        & Hout & _).
  - vm_compute. reflexivity.
  - exists responses. split; [exact Hlen|exact Hout].
Defined.

(** Both nodes are refused; the first to complete decides. *)
Lemma process_query_first_failure_witness :
  (round_record refuses_all [1%nat] "Q?" ready).1.*1 = [1; 0]%nat
  ∧ ∃ st', process_query refuses_all [1%nat] "Q?" ready
           = (Raise (Exception "Failed to query notebook: unavailable"), st')
         ∧ heap st' = heap ready.
Proof.
  split; [vm_compute; reflexivity|].
  destruct (process_query_first_failure refuses_all [1%nat] "Q?" ready
              (Exception "Failed to query notebook: unavailable"))
    as (st' & Hrun & _ & _ & _ & Hheap & _).
  - vm_compute. reflexivity.
  - exists st'. split; [exact Hrun|exact Hheap].
Defined.

Lemma process_query_synthesis_refused_witness :
  (gather [] (query_tasks (rejects "agg") (nodes (scheduler ready)) "Q?")
          (started "Q?" ready)).1 = Ok ["X"; "X"]
  ∧ (process_query (rejects "agg") [] "Q?" ready).1 = Raise boom.
Proof.
  split; [vm_compute; reflexivity|].
  rewrite (process_query_synthesis_refused (rejects "agg") [] "Q?" ready ["X"; "X"]
             (gather [] (query_tasks (rejects "agg") (nodes (scheduler ready)) "Q?")
                     (started "Q?" ready)).2
             aggregator (HttpResponse 500 "boom" None)).
  - reflexivity.
  - vm_compute. reflexivity.
  - reflexivity.
  - reflexivity.
  - vm_compute. reflexivity.
  - vm_compute. discriminate.
Defined.

Lemma distribute_documents_success_witness :
  (distribute_documents answers_X files [2; 0]%nat docs_abc (Some 2) ready).1 = Ok ()
  ∧ ∃ sent,
      net_log (distribute_documents answers_X files [2; 0]%nat docs_abc (Some 2) ready).2
      = net_log ready ++ sent
      ∧ length sent = length docs_abc.
Proof.
  split; [vm_compute; reflexivity|].
  destruct (distribute_documents_success answers_X files [2; 0]%nat docs_abc (Some 2)
              ready
              (distribute_documents answers_X files [2; 0]%nat docs_abc (Some 2) ready).2)
    as (_ & (sent & Hsent & _ & Hlen) & _).
  - vm_compute. reflexivity.
  - exists sent. split; [exact Hsent|exact Hlen].
Defined.

Lemma initialize_scheduler_spec_witness :
  (initialize_scheduler provisioning no_aggregator).1 = Ok ()
  ∧ heap (initialize_scheduler provisioning no_aggregator).2 = heap ready
  ∧ scheduler (initialize_scheduler provisioning no_aggregator).2
    = scheduler no_aggregator.
Proof.
  split; [vm_compute; reflexivity|]. split; [vm_compute; reflexivity|].
  destruct (initialize_scheduler_spec provisioning no_aggregator fresh_aggregator)
    as (Hsched & _).
  - reflexivity.
  - exact Hsched.
Defined.

(** The upload of [b] is refused; those of [a] and [c] went through. *)
Lemma distribute_documents_upload_failure_witness :
  (completions [] (upload_tasks refuses_b files [1; 2]%nat docs_abc 2) ready).1
  = [(0, Ok "doc"); (1, Raise (Exception "Failed to upload document: boom"));
     (2, Ok "doc")]%nat
  ∧ (distribute_documents refuses_b files [] docs_abc (Some 2) ready).1
    = Raise (Exception "Failed to upload document: boom")
  ∧ stdout (distribute_documents refuses_b files [] docs_abc (Some 2) ready).2
    = stdout ready.
Proof.
  split; [vm_compute; reflexivity|].
  destruct (distribute_documents_upload_failure refuses_b files [] docs_abc (Some 2)
              ready (Exception "Failed to upload document: boom"))
    as (Hrun & Hout & _).
  - vm_compute. discriminate.
  - vm_compute. reflexivity.
  - rewrite Hrun. split; [reflexivity|exact Hout].
Defined.

End MoreInstances.
